(** * The five-point essential-matrix solver (vpgl_em_compute_5_point)

    A shallow embedding of gel/mrc/vpgl/algo/vpgl_em_compute_5_point.h and
    the properties of its five stages.

    Conventions of the embedding.
    - The template scalar [T] and [double] are one abstract type [F] with
      the operations the code applies to them (class [Scalar]); theorems
      that need an algebraic law assume exactly that law.
    - [vcl_vector], [vnl_vector] and [vnl_vector_fixed] are lists;
      [vnl_matrix] is a list of rows.  Reading outside a container is
      undefined behaviour in the source; every read whose index or
      container comes from outside the function is a lookup in the [option]
      monad, [None] standing for the undefined run.
    - vnl's numerical algorithms (SVD, row reduction, eigensystem) and the
      arithmetic operators of [vnl_real_npolynomial] are not part of this
      file's sources; they are the members of the classes [VnlAlgo] and
      [VnlPoly]. *)

From Stdlib Require Import ZArith QArith Qcanon Qcabs String Ascii.
From Corelib Require Import PrimFloat.
From stdpp Require Import base option list.

(** ** Scalars *)

Class Scalar (F : Type) := {
  s_of_Z : Z → F;            (* the literals 0.0, 1.0, 2 and -1 *)
  s_add : F → F → F;
  s_sub : F → F → F;
  s_mul : F → F → F;
  s_div : F → F → F;
  s_abs : F → F;             (* vcl_abs *)
  s_leb : F → F → bool       (* <= *)
}.

Declare Scope scalar_scope.
Delimit Scope scalar_scope with S.
Infix "+" := s_add : scalar_scope.
Infix "-" := s_sub : scalar_scope.
Infix "*" := s_mul : scalar_scope.
Infix "/" := s_div : scalar_scope.
Infix "<=?" := s_leb : scalar_scope.

(** [a == b], through the one comparison of the class.  On [double] it is
    false as soon as one side is NaN, and true of 0.0 and -0.0. *)
Definition s_eqb {F : Type} `{Scalar F} (a b : F) : bool :=
  (a <=? b)%S && (b <=? a)%S.

(** [a != 0.0]: true of every nonzero number, of the infinities and of
    NaN. *)
Definition s_nonzero {F : Type} `{Scalar F} (a : F) : Prop :=
  s_eqb a (s_of_Z 0) = false.

(** [a - a == 0.0]: true of the finite numbers only, since inf - inf and
    NaN - NaN are NaN. *)
Definition s_finite {F : Type} `{Scalar F} (a : F) : Prop :=
  s_eqb (a - a)%S (s_of_Z 0) = true.

(** The one law of division the normalisation step relies on: a finite
    nonzero number divided by itself is 1.  IEEE division is correctly
    rounded, so [double] meets it; it says nothing of a zero, infinite or
    NaN divisor. *)
Class ScalarDiv (F : Type) `{Scalar F} :=
  s_div_same : ∀ a : F, s_finite a → s_nonzero a → (a / a)%S = s_of_Z 1.

(** ** Containers *)

(** [for (int i = lo; i < hi; i++) body], the body threading a state and
    possibly running into undefined behaviour. *)
Definition foldM {S X : Type} (body : X → S → option S) (l : list X)
    (s : S) : option S :=
  foldl (λ acc x, acc ≫= body x) (Some s) l.

Definition for_loop {S : Type} (lo hi : nat) (body : nat → S → option S)
    (s : S) : option S :=
  foldM body (seq lo (hi - lo)) s.

(** [vnl_matrix<A>], row major. *)
Abbreviation vnl_matrix A := (list (list A)).

Section Matrix.
Context {A : Type}.
Local Abbreviation vnl_matrix := (vnl_matrix A).

(** [vnl_matrix<A> m(r, c)]: the cells of a fresh matrix hold no
    meaningful value; every cell is assigned before it is read, so any
    filler [a] does. *)
Definition vnl_matrix_new (r c : nat) (a : A) : vnl_matrix :=
  replicate r (replicate c a).

Definition rows (m : vnl_matrix) : nat := length m.
Definition cols (m : vnl_matrix) : nat :=
  match m with [] => 0 | r :: _ => length r end.

(** [m.get(i, j)] *)
Definition get (m : vnl_matrix) (i j : nat) : option A :=
  m !! i ≫= (.!! j).

(** [m.put(i, j, v)]; the source only puts inside the dimensions it has
    declared or asserted. *)
Definition put (i j : nat) (v : A) (m : vnl_matrix) : vnl_matrix :=
  alter (<[j := v]>) i m.

(** [m.fill(v)] *)
Definition fill (v : A) (m : vnl_matrix) : vnl_matrix :=
  fmap (fmap (M:=list) (λ _, v)) m.

(** [m.get_row(i)] *)
Definition get_row (m : vnl_matrix) (i : nat) : option (list A) := m !! i.

(** [m.set_row(i, v)] *)
Definition set_row (i : nat) (v : list A) (m : vnl_matrix) : vnl_matrix :=
  <[i := v]> m.

(** every row has [c] cells and there are [r] rows *)
Definition has_dims (r c : nat) (m : vnl_matrix) : Prop :=
  length m = r ∧ Forall (λ row, length row = c) m.
End Matrix.

(** [m.set_identity()] on a matrix of [unsigned]. *)
Definition set_identity (m : vnl_matrix Z) : vnl_matrix Z :=
  imap (λ i row, imap (λ j _, if decide (i = j) then 1%Z else 0%Z) row) m.

(** ** Polynomials: [vnl_real_npolynomial] *)

Section Polynomial.
Context {F : Type} `{Scalar F}.

(** The two accessors the source uses: [coefficients()], one coefficient
    per term, and [polyn()], one row of exponents per term and one column
    per variable. *)
Record vnl_real_npolynomial := {
  coefficients : list F;
  polyn : vnl_matrix Z
}.

(** The default-constructed polynomial. *)
Global Instance vnl_real_npolynomial_inhabited :
  Inhabited vnl_real_npolynomial :=
  populate {| coefficients := []; polyn := [] |}.

(** Modelled from the spec: [vnl_real_npolynomial::set] (the class is
    declared in vnl/vnl_real_npolynomial.h, which is not among the
    sources): the polynomial is the sum of the terms "a real coefficient
    times a monomial" listed by the coefficient vector and the rows of
    the exponent matrix. *)
Definition set (coeffs : list F) (exps : vnl_matrix Z) : vnl_real_npolynomial :=
  {| coefficients := coeffs; polyn := exps |}.

(** A polynomial in at least three variables whose coefficient vector is
    as long as its exponent matrix. *)
Definition poly_wf (p : vnl_real_npolynomial) : Prop :=
  length (coefficients p) = length (polyn p) ∧
  Forall (λ row, 3 ≤ length row) (polyn p).

(** [x_p == p.polyn().get(i, c)]: an [int] against an [unsigned]; the
    usual arithmetic conversions reduce the [int] modulo 2^32. *)
Definition int_eq_unsigned (a u : Z) : bool := (a mod 2 ^ 32 =? u)%Z.

(** The loop of [get_coeff] from row [i] on, [rest] being rows [i..] of
    [p.polyn()].  The conjunction short-circuits as [and] does. *)
Fixpoint get_coeff_from (p : vnl_real_npolynomial) (x_p y_p z_p : Z)
    (i : nat) (rest : list (list Z)) : option F :=
  match rest with
  | [] => Some (s_of_Z (-1))
  | row :: rest' =>
      e0 ← row !! 0;
      if int_eq_unsigned x_p e0 then
        e1 ← row !! 1;
        if int_eq_unsigned y_p e1 then
          e2 ← row !! 2;
          if int_eq_unsigned z_p e2 then coefficients p !! i
          else get_coeff_from p x_p y_p z_p (S i) rest'
        else get_coeff_from p x_p y_p z_p (S i) rest'
      else get_coeff_from p x_p y_p z_p (S i) rest'
  end.

Definition get_coeff (p : vnl_real_npolynomial) (x_p y_p z_p : Z) : option F :=
  get_coeff_from p x_p y_p z_p 0 (polyn p).

(** The exponent triples of the twenty [A.put(i, j, get_coeff(...))]
    lines of [compute_groebner_basis], in column order:
    x3 x2y xy2 y3 x2z xyz y2z xz2 yz2 z3 x2 xy y2 xz yz z2 x y z 1. *)
Definition monomials : list (Z * Z * Z) :=
  [ (3,0,0); (2,1,0); (1,2,0); (0,3,0); (2,0,1);
    (1,1,1); (0,2,1); (1,0,2); (0,1,2); (0,0,3);
    (2,0,0); (1,1,0); (0,2,0); (1,0,1); (0,1,1);
    (0,0,2); (1,0,0); (0,1,0); (0,0,1); (0,0,0) ]%Z.

(** The first loop of [compute_groebner_basis]: the 10x20 matrix [A]. *)
Definition coefficient_row (i : nat) (constraints : list vnl_real_npolynomial)
    (A : vnl_matrix F) : option (vnl_matrix F) :=
  c ← constraints !! i;
  foldM (λ '(j, (x_p, y_p, z_p)) A,
           v ← get_coeff c x_p y_p z_p;
           Some (put i j v A))
        (imap (λ j m, (j, m)) monomials) A.

Definition coefficient_matrix (constraints : list vnl_real_npolynomial)
    : option (vnl_matrix F) :=
  for_loop 0 10 (λ i A, coefficient_row i constraints A)
           (vnl_matrix_new 10 20 (s_of_Z 0)).
End Polynomial.
Global Arguments vnl_real_npolynomial : clear implicits.

(** The operators of [vnl_real_npolynomial] the solver applies
    (vnl/vnl_real_npolynomial.h is not among the sources). *)
Class VnlPoly (F : Type) `{Scalar F} := {
  padd : vnl_real_npolynomial F → vnl_real_npolynomial F → vnl_real_npolynomial F;
  psub : vnl_real_npolynomial F → vnl_real_npolynomial F → vnl_real_npolynomial F;
  pmul : vnl_real_npolynomial F → vnl_real_npolynomial F → vnl_real_npolynomial F;
  pscale : vnl_real_npolynomial F → F → vnl_real_npolynomial F  (* operator*(double) *)
}.

Declare Scope poly_scope.
Delimit Scope poly_scope with P.
Infix "+" := padd : poly_scope.
Infix "-" := psub : poly_scope.
Infix "*" := pmul : poly_scope.
Infix "*!" := pscale (at level 40, left associativity) : poly_scope.

(** What the solver needs of those operators to stay inside defined
    behaviour: their results are polynomials [get_coeff] can read. *)
Class VnlPolyWf (F : Type) `{VnlPoly F} : Prop := {
  padd_wf : ∀ p q, poly_wf p → poly_wf q → poly_wf (p + q)%P;
  psub_wf : ∀ p q, poly_wf p → poly_wf q → poly_wf (p - q)%P;
  pmul_wf : ∀ p q, poly_wf p → poly_wf q → poly_wf (p * q)%P;
  pscale_wf : ∀ p c, poly_wf p → poly_wf (p *! c)%P
}.

(** ** The numerical algorithms of vnl *)

Record complex (F : Type) := { real : F; imag : F }.
Global Arguments real {F} _.
Global Arguments imag {F} _.

(** [vnl_real_eigensystem]: the diagonal matrix [D] of eigenvalues, kept as
    its diagonal, and the matrix [V]. *)
Record eigensystem (F : Type) := {
  D : list (complex F);
  V : vnl_matrix (complex F)
}.
Global Arguments D {F} _.
Global Arguments V {F} _.

Class VnlAlgo (F : Type) := {
  (** [vnl_svd<T> svd(A, tol); svd.V()] *)
  svd_V : vnl_matrix F → F → vnl_matrix F;
  (** [vnl_rank_row_reduce<double>(A)]: takes [A] by const reference and
      returns the reduced matrix. *)
  vnl_rank_row_reduce : vnl_matrix F → vnl_matrix F;
  (** [vnl_real_eigensystem eigs(M)] *)
  vnl_real_eigensystem : vnl_matrix F → eigensystem F
}.

(** The dimensions vnl promises: the [V] of the SVD of an m x n matrix is
    n x n; the eigensystem of an n x n matrix has n eigenvalues and an
    n x n matrix [V]. *)
Class VnlAlgoDims (F : Type) `{VnlAlgo F} : Prop := {
  svd_V_dims : ∀ A tol, has_dims (cols A) (cols A) (svd_V A tol);
  eig_D_size : ∀ M, length (D (vnl_real_eigensystem M)) = rows M;
  eig_V_dims : ∀ M, has_dims (rows M) (rows M) (V (vnl_real_eigensystem M))
}.

(** ** The solver *)

Section Solver.
Context {F : Type} `{PF : VnlPoly F} {AF : VnlAlgo F}.

Local Abbreviation poly := (vnl_real_npolynomial F).

(** [vgl_point_2d<T>], with its accessors [x()] and [y()]. *)
Record vgl_point_2d := { x : F; y : F }.

(** [vnl_vector_fixed<T, 9>] *)
Local Abbreviation vnl_vector_fixed := (list F).

(** Modelled from the spec: [vpgl_essential_matrix<T>]
    (vpgl/vpgl_essential_matrix.h is not among the sources): "a real 3x3
    matrix", here the matrix handed to its constructor. *)
Record vpgl_essential_matrix := { get_matrix : vnl_matrix F }.

(** The solver object: its two data members. *)
Record vpgl_em_compute_5_point := { verbose : bool; tolerance : F }.

(** What [operator<<] sends to [vcl_cerr]. *)
Inductive cerr_item :=
| put_string (s : string)
| put_size (n : nat)
| put_char (c : ascii).

(** How a call of a [bool] function ends. *)
Inductive return_value :=
| Returned (b : bool)   (* a [return b;] was executed *)
| NoReturn.             (* control reached the closing brace *)

Record outcome := {
  ret : return_value;
  ems_after : list vpgl_essential_matrix;
  cerr : list cerr_item
}.

Variable this : vpgl_em_compute_5_point.

(** *** S1: [compute_nullspace_basis] *)

(** The 5x9 epipolar constraint matrix. *)
Definition epipolar_matrix (right_points left_points : list vgl_point_2d)
    : option (vnl_matrix F) :=
  for_loop 0 5 (λ i A,
      r ← right_points !! i;
      l ← left_points !! i;
      let A := put i 0 (x r * x l)%S A in
      let A := put i 1 (y r * x l)%S A in
      let A := put i 2 (x l) A in
      let A := put i 3 (x r * y l)%S A in
      let A := put i 4 (y r * y l)%S A in
      let A := put i 5 (y l) A in
      let A := put i 6 (x r) A in
      let A := put i 7 (y r) A in
      let A := put i 8 (s_of_Z 1) A in
      Some A)
    (vnl_matrix_new 5 9 (s_of_Z 0)).

Definition compute_nullspace_basis
    (right_points left_points : list vgl_point_2d)
    (basis : list vnl_vector_fixed) : option (list vnl_vector_fixed) :=
  A ← epipolar_matrix right_points left_points;
  let V := svd_V A (tolerance this) in
  for_loop 5 9 (λ i basis,
      basis_vector ← for_loop 0 9 (λ j basis_vector,
                          v ← get V j i;
                          Some (<[j := v]> basis_vector))
                        (replicate 9 (s_of_Z 0));
      Some (basis ++ [basis_vector]))
    basis.

(** *** S2: [compute_constraint_polynomials] *)

(** [exps(4, 4); exps.set_identity(); exps.put(3, 3, 0)] *)
Definition exps : vnl_matrix Z :=
  put 3 3 0%Z (set_identity (vnl_matrix_new 4 4 0%Z)).

(** The nine polynomials e11 .. e33, entry [i] being
    [x * X_i + y * Y_i + z * Z_i + W_i]. *)
Definition entry_polynomials_of (basis : list vnl_vector_fixed)
    : option (list poly) :=
  for_loop 0 9 (λ i entry_polynomials,
      c0 ← basis !! 0 ≫= (.!! i);
      c1 ← basis !! 1 ≫= (.!! i);
      c2 ← basis !! 2 ≫= (.!! i);
      c3 ← basis !! 3 ≫= (.!! i);
      Some (<[i := set [c0; c1; c2; c3] exps]> entry_polynomials))
    (replicate 9 inhabitant).

Section Constraints.
(** [entry_polynomials[k]]: the vector has nine entries and every index
    the source forms lies in 0..8. *)
Variable E : nat → poly.

Definition det_term_1 : poly := (E 4 * (E 0 * E 8 - E 6 * E 2))%P.
Definition det_term_2 : poly := (E 5 * (E 1 * E 6 - E 0 * E 7))%P.
Definition det_term_3 : poly := (E 3 * (E 2 * E 7 - E 1 * E 8))%P.

Definition sum_of_squares : poly :=
  foldl (λ s i, s + E i * E i)%P (E 0 * E 0)%P (seq 1 8).

Definition two : F := s_of_Z 2.

(** The bracket of the term whose factors start at entry [r]. *)
Definition bracket (r i : nat) : poly :=
  (E r * E (3 * (i mod 3) + 0) *! two +
   E (r + 1) * E (3 * (i mod 3) + 1) *! two +
   E (r + 2) * E (3 * (i mod 3) + 2) *! two)%P.

(** First loop: "the first two terms in each polynomial". *)
Definition first_terms (i : nat) : poly :=
  (E (i mod 3) * bracket 0 i - E i * sum_of_squares)%P.

(** Second loop: "the next term". *)
Definition next_term (i : nat) : poly :=
  (E (i mod 3 + 3) * bracket 3 i)%P.

(** Third loop: "last term". *)
Definition last_term (i : nat) : poly :=
  (E (i mod 3 + 6) * bracket 6 i)%P.

Definition constraint_loops (constraints : list poly) : list poly :=
  let constraints :=
    constraints ++ [(det_term_1 + det_term_2 + det_term_3)%P] in
  let constraints :=
    foldl (λ cs i, cs ++ [first_terms i]) constraints (seq 0 9) in
  let constraints :=
    foldl (λ cs i, <[i := (cs !!! i + next_term i)%P]> cs)
          constraints (seq 0 9) in
  let constraints :=
    foldl (λ cs i, <[i := (cs !!! i + last_term i)%P]> cs)
          constraints (seq 0 9) in
  constraints.
End Constraints.

Definition compute_constraint_polynomials (basis : list vnl_vector_fixed)
    (constraints : list poly) : option (list poly) :=
  entry_polynomials ← entry_polynomials_of basis;
  Some (constraint_loops (λ k, entry_polynomials !!! k) constraints).

(** *** S3: [compute_groebner_basis] *)

Definition compute_groebner_basis (constraints : list poly)
    (groebner_basis : vnl_matrix F) : option (vnl_matrix F) :=
  (* the two asserts *)
  if decide (rows groebner_basis = 10 ∧ cols groebner_basis = 10) then
    A ← coefficient_matrix constraints;
    let rrefed := vnl_rank_row_reduce A in
    for_loop 0 10 (λ i groebner_basis,
        for_loop 0 10 (λ j groebner_basis,
            v ← get A i (j + 10);
            Some (put i j v groebner_basis))
          groebner_basis)
      groebner_basis
  else None.

(** *** S4: [compute_action_matrix] *)

(** [m *= c] *)
Definition scale (c : F) (m : vnl_matrix F) : vnl_matrix F :=
  fmap (fmap (M:=list) (λ v, v * c)%S) m.

Definition compute_action_matrix (groebner_basis action_matrix : vnl_matrix F)
    : option (vnl_matrix F) :=
  let action_matrix := fill (s_of_Z 0) action_matrix in
  r ← get_row groebner_basis 0; let action_matrix := set_row 0 r action_matrix in
  r ← get_row groebner_basis 1; let action_matrix := set_row 1 r action_matrix in
  r ← get_row groebner_basis 2; let action_matrix := set_row 2 r action_matrix in
  r ← get_row groebner_basis 4; let action_matrix := set_row 3 r action_matrix in
  r ← get_row groebner_basis 5; let action_matrix := set_row 4 r action_matrix in
  r ← get_row groebner_basis 7; let action_matrix := set_row 5 r action_matrix in
  let action_matrix := scale (s_of_Z (-1)) action_matrix in
  let action_matrix := put 6 0 (s_of_Z 1) action_matrix in
  let action_matrix := put 7 1 (s_of_Z 1) action_matrix in
  let action_matrix := put 8 3 (s_of_Z 1) action_matrix in
  let action_matrix := put 9 6 (s_of_Z 1) action_matrix in
  Some action_matrix.

(** *** S5: [compute_e_matrices] *)

(** [s * v], [u + v] and [v /= s] on [vnl_vector_fixed]. *)
Definition vscale (s : F) (v : vnl_vector_fixed) : vnl_vector_fixed :=
  fmap (λ a, s * a)%S v.
Definition vadd (u v : vnl_vector_fixed) : vnl_vector_fixed :=
  zip_with s_add u v.
Definition vdiv (v : vnl_vector_fixed) (s : F) : vnl_vector_fixed :=
  fmap (λ a, a / s)%S v.

(** [vnl_matrix_fixed<T, 3, 3>(linear_e.data_block())]: the nine values
    in row-major order. *)
Definition vnl_matrix_fixed_3_3 (data_block : list F) : vnl_matrix F :=
  [take 3 data_block; take 3 (drop 3 data_block); take 3 (drop 6 data_block)].

(** The body of the [if] for eigenvalue [i]. *)
Definition e_matrix (basis : list vnl_vector_fixed) (eigs : eigensystem F)
    (i : nat) : option vpgl_essential_matrix :=
  v9 ← get (V eigs) i 9;
  let w_inv := (s_of_Z 1 / real v9)%S in
  v6 ← get (V eigs) i 6;
  let x := (real v6 * w_inv)%S in
  v7 ← get (V eigs) i 7;
  let y := (real v7 * w_inv)%S in
  v8 ← get (V eigs) i 8;
  let z := (real v8 * w_inv)%S in
  b0 ← basis !! 0;
  b1 ← basis !! 1;
  b2 ← basis !! 2;
  b3 ← basis !! 3;
  let linear_e := vadd (vadd (vadd (vscale x b0) (vscale y b1)) (vscale z b2)) b3 in
  e8 ← linear_e !! 8;
  let linear_e := vdiv linear_e e8 in
  Some {| get_matrix := vnl_matrix_fixed_3_3 linear_e |}.

Definition compute_e_matrices (basis : list vnl_vector_fixed)
    (action_matrix : vnl_matrix F) (ems : list vpgl_essential_matrix)
    : option (list vpgl_essential_matrix) :=
  let eigs := vnl_real_eigensystem action_matrix in
  for_loop 0 (length (D eigs)) (λ i ems,
      d ← D eigs !! i;
      if (s_abs (imag d) <=? tolerance this)%S then
        em ← e_matrix basis eigs i;
        Some (ems ++ [em])
      else Some ems)
    ems.

(** *** [compute] *)

Definition wrong_number_message (right_points left_points : list vgl_point_2d)
    : list cerr_item :=
  [ put_string "Wrong number of input points!
";
    put_string "right_points has "; put_size (length right_points);
    put_string " and left_points has "; put_size (length left_points);
    put_char "010"%char ].

Definition compute (right_points left_points : list vgl_point_2d)
    (ems : list vpgl_essential_matrix) : option outcome :=
  if decide (length right_points ≠ 5 ∨ length left_points ≠ 5) then
    Some {| ret := Returned false;
            ems_after := ems;
            cerr := if verbose this
                    then wrong_number_message right_points left_points
                    else [] |}
  else
    basis ← compute_nullspace_basis right_points left_points [];
    constraints ← compute_constraint_polynomials basis [];
    groebner_basis ←
      compute_groebner_basis constraints (vnl_matrix_new 10 10 (s_of_Z 0));
    action_matrix ←
      compute_action_matrix groebner_basis (vnl_matrix_new 10 10 (s_of_Z 0));
    ems ← compute_e_matrices basis action_matrix ems;
    Some {| ret := NoReturn; ems_after := ems; cerr := [] |}.
End Solver.

(** ** What the specification says, in its own words *)

Section Specification.
Context {F : Type} `{Scalar F}.

(** "A stored term of [p] has exactly the exponents (x, y, z) in its first
    three variables." *)
Definition stores_term (p : vnl_real_npolynomial F) (x_p y_p z_p : Z) : Prop :=
  ∃ row, row ∈ polyn p ∧
         row !! 0 = Some x_p ∧ row !! 1 = Some y_p ∧ row !! 2 = Some z_p.

(** The value [get_coeff] finds, for use where the lookup is known to
    succeed. *)
Definition found_coeff (p : vnl_real_npolynomial F) (m : Z * Z * Z) : F :=
  default (s_of_Z 0) (get_coeff p m.1.1 m.1.2 m.2).

(** An exponent passed as an [int]. *)
Definition int_exponent (e : Z) : Prop := (0 ≤ e < 2 ^ 31)%Z.

(** Row i of the epipolar matrix:
    [xr xl, yr xl, xl, xr yl, yr yl, yl, xr, yr, 1]. *)
Definition epipolar_row (r l : @vgl_point_2d F) : list F :=
  [ x r * x l; y r * x l; x l; x r * y l; y r * y l; y l; x r; y r;
    s_of_Z 1 ]%S.

(** Column [k] of a matrix with nine rows, as a 9-vector. *)
Definition column9 (V : vnl_matrix F) (k : nat) : option (list F) :=
  mapM (λ j, get V j k) (seq 0 9).

(** The body of the loop of [compute_e_matrices] as a total function of
    the basis and of row [v] of [V], with the vector operations of the
    code: the form in which the run of the loop is stated. *)
Definition reconstructed_e (basis : list (list F)) (v : list (complex F))
    : list F :=
  let re k := real (default {| real := s_of_Z 0; imag := s_of_Z 0 |} (v !! k)) in
  let w_inv := (s_of_Z 1 / re 9)%S in
  let x := (re 6 * w_inv)%S in
  let y := (re 7 * w_inv)%S in
  let z := (re 8 * w_inv)%S in
  let B k := default [] (basis !! k) in
  vadd (vadd (vadd (vscale x (B 0)) (vscale y (B 1))) (vscale z (B 2))) (B 3).

Definition reconstructed_matrix (basis : list (list F)) (v : list (complex F))
    : @vpgl_essential_matrix F :=
  let e := reconstructed_e basis v in
  let e8 := default (s_of_Z 0) (e !! 8) in
  {| get_matrix := vnl_matrix_fixed_3_3 (vdiv e e8) |}.

(** What eigenvalue [i] contributes to the output list. *)
Definition contribution (tol : F) (basis : list (list F)) (eigs : eigensystem F)
    (i : nat) : list (@vpgl_essential_matrix F) :=
  match D eigs !! i with
  | Some d => if (s_abs (imag d) <=? tol)%S
              then [reconstructed_matrix basis (default [] (V eigs !! i))]
              else []
  | None => []
  end.

(** Entry [k] of the 9-vector e = x B0 + y B1 + z B2 + B3 of the
    specification, with w_inv = 1 / Re(v[9]), x = Re(v[6]) w_inv,
    y = Re(v[7]) w_inv, z = Re(v[8]) w_inv, written entry by entry; the sum
    is taken from left to right. *)
Definition specified_entry (basis : list (list F)) (v : list (complex F))
    (k : nat) : F :=
  let re j := real (default {| real := s_of_Z 0; imag := s_of_Z 0 |} (v !! j)) in
  let w_inv := (s_of_Z 1 / re 9%nat)%S in
  let x := (re 6%nat * w_inv)%S in
  let y := (re 7%nat * w_inv)%S in
  let z := (re 8%nat * w_inv)%S in
  let B i := default (s_of_Z 0) (basis !! i ≫= (.!! k)) in
  (x * B 0%nat + y * B 1%nat + z * B 2%nat + B 3%nat)%S.

(** The 3x3 matrix of the specification: entry (r, c) is e[3 r + c]
    divided by e[8]. *)
Definition specified_matrix (basis : list (list F)) (v : list (complex F))
    : vnl_matrix F :=
  let e := specified_entry basis v in
  (λ r, (λ c, (e (3 * r + c)%nat / e 8%nat)%S) <$> seq 0 3) <$> seq 0 3.

(** What eigenvalue [i] is specified to contribute: one matrix, built from
    row [i] of [V], when |Im| <= tolerance, and nothing otherwise. *)
Definition specified_contribution (tol : F) (basis : list (list F))
    (eigs : eigensystem F) (i : nat) : list (@vpgl_essential_matrix F) :=
  match D eigs !! i, V eigs !! i with
  | Some d, Some v =>
      if (s_abs (imag d) <=? tol)%S
      then [{| get_matrix := specified_matrix basis v |}] else []
  | _, _ => []
  end.

(** The value a caller reads from a call that ended as [r]: a call that
    executed no [return] hands back an indeterminate [bool]. *)
Definition may_read (r : return_value) (b : bool) : Prop :=
  match r with
  | Returned b' => b = b'
  | NoReturn => True
  end.
End Specification.

(** ** Evaluating polynomials *)

Section Evaluation.
Context {F : Type} `{Scalar F}.

Definition s_pow (a : F) (n : Z) : F :=
  Nat.iter (Z.to_nat n) (s_mul a) (s_of_Z 1).

(** The value of the monomial with exponent row [row] at [vars]. *)
Definition monomial_value (vars : list F) (row : list Z) : F :=
  foldr s_mul (s_of_Z 1) (zip_with s_pow vars row).

(** The value of a polynomial: the sum of its terms. *)
Definition peval (vars : list F) (p : vnl_real_npolynomial F) : F :=
  foldr s_add (s_of_Z 0)
        (zip_with (λ c row, c * monomial_value vars row)%S
                  (coefficients p) (polyn p)).

End Evaluation.

(** ** The ten constraints as the specification lists them *)

Section SpecifiedConstraints.
Context {F : Type} `{VnlPoly F}.
Variable E : nat → vnl_real_npolynomial F.

(** det = E4 (E0 E8 - E6 E2) + E5 (E1 E6 - E0 E7) + E3 (E2 E7 - E1 E8) *)
Definition spec_det : vnl_real_npolynomial F :=
  (E 4 * (E 0 * E 8 - E 6 * E 2) + E 5 * (E 1 * E 6 - E 0 * E 7)
   + E 3 * (E 2 * E 7 - E 1 * E 8))%P.

(** S, the sum of the squares of the nine entries. *)
Definition spec_S : vnl_real_npolynomial F :=
  foldl (λ s k, s + E k * E k)%P (E 0 * E 0)%P (seq 1 8).

(** C_i, the four-term formula, with r = i mod 3. *)
Definition spec_C (i : nat) : vnl_real_npolynomial F :=
  let r := i mod 3 in
  let twice p := (p *! s_of_Z 2)%P in
  (E r * twice (E 0 * E (3 * r + 0) + E 1 * E (3 * r + 1) + E 2 * E (3 * r + 2))
   + E (r + 3) * twice (E 3 * E (3 * r + 0) + E 4 * E (3 * r + 1) + E 5 * E (3 * r + 2))
   + E (r + 6) * twice (E 6 * E (3 * r + 0) + E 7 * E (3 * r + 1) + E 8 * E (3 * r + 2))
   - E i * spec_S)%P.

(** [det, C0, ..., C8] *)
Definition spec_constraints : list (vnl_real_npolynomial F) :=
  spec_det :: (spec_C <$> seq 0 9).
End SpecifiedConstraints.

(** ** An exact instance: rational scalars, term-list polynomials *)

Module Exact.

(** The rationals as scalars.  Their division is total, with a / 0 = 0,
    where [double] gives an infinity or NaN: what is proved over them about
    a quotient carries the hypothesis that the divisor is nonzero. *)
#[export] Instance Qc_scalar : Scalar Qc := {|
  s_of_Z z := Q2Qc (inject_Z z);
  s_add := Qcplus;
  s_sub := Qcminus;
  s_mul := Qcmult;
  s_div := Qcdiv;
  s_abs := Qcabs;
  s_leb a b := Qle_bool a b
|}.

Section TermLists.
Context {F : Type} `{Scalar F}.
Local Abbreviation poly := (vnl_real_npolynomial F).

Definition terms (p : poly) : list (F * list Z) :=
  zip (coefficients p) (polyn p).

Definition of_terms (ts : list (F * list Z)) : poly :=
  {| coefficients := ts.*1; polyn := ts.*2 |}.

(** Modelled from the spec: the arithmetic of [vnl_real_npolynomial]
    (vnl/vnl_real_npolynomial.h and its implementation are not among the
    sources): "a sum of terms, each term a real coefficient times a
    monomial"; "addition, subtraction, and multiplication are supported". *)
Definition poly_add (p q : poly) : poly := of_terms (terms p ++ terms q).

(** Modelled from the spec: [operator*(double)] of [vnl_real_npolynomial],
    every term's coefficient times the scalar. *)
Definition poly_scale (p : poly) (c : F) : poly :=
  of_terms (fmap (λ t, (t.1 * c, t.2)%S) (terms p)).

(** Modelled from the spec: [operator-] of [vnl_real_npolynomial], the sum
    with the negated terms. *)
Definition poly_sub (p q : poly) : poly :=
  poly_add p (poly_scale q (s_of_Z (-1))).

(** Modelled from the spec: [operator*] of [vnl_real_npolynomial], the
    products of all pairs of terms, exponents added. *)
Definition poly_mul (p q : poly) : poly :=
  of_terms (t ← terms p; u ← terms q;
            [((t.1 * u.1)%S, zip_with Z.add t.2 u.2)]).

#[export] Instance term_list_poly : VnlPoly F := {|
  padd := poly_add; psub := poly_sub; pmul := poly_mul; pscale := poly_scale
|}.
End TermLists.

(** The first row at or below [r] with a nonzero entry in column [c]. *)
Definition find_pivot (m : vnl_matrix Qc) (r c : nat) : option nat :=
  (λ k, r + k) <$>
    list_find (λ row, default 0%Qc (row !! c) ≠ 0%Qc) (drop r m) ≫= (Some ∘ fst).

(** Exchange rows [i] and [j]. *)
Definition swap_rows (m : vnl_matrix Qc) (i j : nat) : vnl_matrix Qc :=
  match m !! i, m !! j with
  | Some ri, Some rj => <[j := ri]> (<[i := rj]> m)
  | _, _ => m
  end.

(** Scale row [r] to a leading 1 in column [c] and clear that column in
    every other row. *)
Definition eliminate (r c : nat) (m : vnl_matrix Qc) : vnl_matrix Qc :=
  match m !! r with
  | Some prow =>
      let pivot := default 1%Qc (prow !! c) in
      let prow := fmap (λ a, a / pivot)%Qc prow in
      imap (λ i row,
              if decide (i = r) then prow
              else let f := default 0%Qc (row !! c) in
                   zip_with (λ a b, a - f * b)%Qc row prow) m
  | None => m
  end.

(** One column of the elimination; the state is the next pivot row and
    the matrix. *)
Definition rref_column (st : nat * vnl_matrix Qc) (c : nat)
    : nat * vnl_matrix Qc :=
  match find_pivot st.2 st.1 c with
  | Some k => (S st.1, eliminate st.1 c (swap_rows st.2 st.1 k))
  | None => st
  end.

(** Modelled from the spec: [vnl_rank_row_reduce] (vnl/vnl_rank.h is not
    among the sources): "reduced row echelon form over the reals", here by
    Gauss-Jordan elimination, column by column. *)
Definition rref (m : vnl_matrix Qc) : vnl_matrix Qc :=
  (foldl rref_column (0, m) (seq 0 (cols m))).2.

(** Stand-ins for the SVD and the eigensolver that keep vnl's dimensions:
    the identity as [V] in both, the diagonal of the matrix as [D].  They
    serve to run the solver on concrete data. *)
Definition identity (n : nat) : vnl_matrix Qc :=
  fmap (λ i, fmap (λ j, if decide (i = j) then 1%Qc else 0%Qc) (seq 0 n)) (seq 0 n).

Definition diagonal (m : vnl_matrix Qc) : list Qc :=
  imap (λ i row, default 0%Qc (row !! i)) m.

Definition of_real (a : Qc) : complex Qc := {| real := a; imag := 0%Qc |}.

#[export] Instance stand_in_algo : VnlAlgo Qc := {|
  svd_V A tol := identity (cols A);
  vnl_rank_row_reduce := rref;
  vnl_real_eigensystem M :=
    {| D := fmap of_real (diagonal M);
       V := fmap (fmap (M:=list) of_real) (identity (rows M)) |}
|}.

(** The sum of the values of a list of terms at [vars]. *)
Definition term_sum (vars : list Qc) (ts : list (Qc * list Z)) : Qc :=
  foldr Qcplus 0%Qc ((λ t, t.1 * monomial_value vars t.2)%Qc <$> ts).

(** Every term has [n] exponents, none negative. *)
Definition uniform (n : nat) (p : vnl_real_npolynomial Qc) : Prop :=
  Forall (λ row, length row = n ∧ Forall (λ e, 0 ≤ e)%Z row) (polyn p).

(** Concrete data. *)

Definition to_Q (m : vnl_matrix Qc) : list (list Q) :=
  fmap (fmap (M:=list) Qcanon.this) m.

(** The solver object with the default tolerance 0.0001, verbose. *)
Definition solver : @vpgl_em_compute_5_point Qc :=
  {| verbose := true; tolerance := Q2Qc (1 # 10000) |}.

Definition five_points : list (@vgl_point_2d Qc) :=
  (λ ab : Z * Z, {| x := Q2Qc (inject_Z ab.1); y := Q2Qc (inject_Z ab.2) |})
    <$> [(0, 0); (1, 0); (0, 1); (1, 1); (2, 3)]%Z.

(** The orthonormal basis B0 = e0, B1 = e1, B2 = e2, B3 = e3 of unit
    9-vectors: E = [x y z; 1 0 0; 0 0 0]. *)
Definition unit9 (k : nat) : list Qc :=
  (λ j, if decide (j = k) then 1%Qc else 0%Qc) <$> seq 0 9.

Definition unit_basis : list (list Qc) := [unit9 0; unit9 1; unit9 2; unit9 3].

(** Entry k of E = x B0 + y B1 + z B2 + B3 at the point (x, y, z). *)
Definition entry_value (basis : list (list Qc)) (x y z : Qc) (k : nat) : Qc :=
  let B (i : nat) := default 0%Qc (basis !! i ≫= (.!! k)) in
  (x * B 0%nat + y * B 1%nat + z * B 2%nat + B 3%nat)%Qc.

(** Ten constraints that store all twenty monomials: constraint i has
    coefficient 2 on monomials i and 10 + i and 1 on the others, so the
    10x20 matrix is [I + J | I + J] with J the all-ones matrix. *)
Definition dense_constraint (i : nat) : vnl_real_npolynomial Qc :=
  {| coefficients :=
       (λ j, if decide (j = i ∨ j = 10 + i) then 2%Qc else 1%Qc) <$> seq 0 20;
     polyn := (λ m : Z * Z * Z, [m.1.1; m.1.2; m.2; 0%Z]) <$> monomials |}.

Definition dense_constraints : list (vnl_real_npolynomial Qc) :=
  dense_constraint <$> seq 0 10.

(** The values at (x, y, z), w = 1, of a list of polynomials. *)
Definition values_at (x y z : Qc) (ps : list (vnl_real_npolynomial Qc)) : list Q :=
  (λ p, Qcanon.this (peval [x; y; z; 1%Qc] p)) <$> ps.

(** The 10x10 matrix with [d] on the diagonal and [o] elsewhere. *)
Definition diagonal_matrix (d o : Q) : list (list Q) :=
  (λ i, (λ j, if decide (i = j) then d else o) <$> seq 0 10) <$> seq 0 10.

(** A matrix already in the caller's output vector. *)
Definition earlier_matrix : @vpgl_essential_matrix Qc :=
  {| get_matrix := identity 3 |}.

(** The polynomial 5 x, in four variables. *)
Definition five_x : vnl_real_npolynomial Qc :=
  set [Q2Qc 5] [[1; 0; 0; 0]%Z].

End Exact.

(** ** Rows of the action matrix and matching rows of a polynomial *)

Section ActionRows.
Context {F : Type} `{Scalar F}.

(** Row [k] of [G] after [action_matrix *= -1]. *)
Definition negated_row (G : vnl_matrix F) (k : nat) : list F :=
  (λ v, v * s_of_Z (-1))%S <$> (G !!! k).

(** A row that [fill(0.0)], [*= -1] and [put(_, k, 1.0)] leave: 1 in
    column [k] and 0.0 * -1 elsewhere. *)
Definition unit_row (k : nat) : list F :=
  <[k := s_of_Z 1]> (replicate 10 (s_of_Z 0 * s_of_Z (-1))%S).

(** Row [row] of an exponent matrix has the exponents (x_p, y_p, z_p) in
    its first three columns. *)
Definition row_matches (row : list Z) (x_p y_p z_p : Z) : Prop :=
  row !! 0 = Some x_p ∧ row !! 1 = Some y_p ∧ row !! 2 = Some z_p.
End ActionRows.

(** ** Epipolar geometry over the exact scalars *)

Module Geometry.
Import Exact.

(** The dot product of two vectors. *)
Definition dot (u v : list Qc) : Qc := foldr Qcplus 0%Qc (zip_with Qcmult u v).

(** The point (x, y) in homogeneous form (x, y, 1). *)
Definition homogeneous (p : @vgl_point_2d Qc) : list Qc := [x p; y p; 1%Qc].

(** l' * E * r for the homogeneous forms of [l] and [r]: the left side of
    the constraint "q1' * E * q2 = 0" the 5x9 matrix is built from. *)
Definition epipolar_form (l : @vgl_point_2d Qc) (E : vnl_matrix Qc)
    (r : @vgl_point_2d Qc) : Qc :=
  dot (homogeneous l) ((λ row, dot row (homogeneous r)) <$> E).

(** The determinant of [e 0 e 1 e 2; e 3 e 4 e 5; e 6 e 7 e 8], expanded
    along its first row. *)
Definition det3 (e : nat → Qc) : Qc :=
  (e 0%nat * (e 4%nat * e 8%nat - e 5%nat * e 7%nat)
   - e 1%nat * (e 3%nat * e 8%nat - e 5%nat * e 6%nat)
   + e 2%nat * (e 3%nat * e 7%nat - e 4%nat * e 6%nat))%Qc.

(** The sum of the squares of [e 0 .. e 8]. *)
Definition squares9 (e : nat → Qc) : Qc :=
  foldr Qcplus 0%Qc ((λ k, e k * e k)%Qc <$> seq 0 9).

(** Four 9-vectors n0 = e0 - e6, n1 = e1 + e2, n2 = e4 + e5, n3 = e7 + e8. *)
Definition paired_basis : list (list Qc) :=
  (fmap (M:=list) (λ z : Z, Q2Qc (inject_Z z))) <$>
    [ [1; 0; 0; 0; 0; 0; -1; 0; 0]; [0; 1; 1; 0; 0; 0; 0; 0; 0];
      [0; 0; 0; 0; 1; 1; 0; 0; 0]; [0; 0; 0; 0; 0; 0; 0; 1; 1] ]%Z.

(** A 9x9 matrix whose columns 0..4 are e3, e6, e2, e5, e8 and whose
    columns 5..8 are n0..n3. *)
Definition paired_V : vnl_matrix Qc :=
  let columns := [unit9 3; unit9 6; unit9 2; unit9 5; unit9 8] ++ paired_basis in
  (λ i, (λ c, default 0%Qc (c !! i)) <$> columns) <$> seq 0 9.

(** Row i of the stand-in eigenvector matrix: Re v[6] = i + 1,
    Re v[7] = 1, Re v[8] = 2, Re v[9] = 1 and zero elsewhere. *)
Definition ramp_row (n i : nat) : list (complex Qc) :=
  (λ j, of_real (if decide (j = 6) then Q2Qc (inject_Z (Z.of_nat (S i)))
                 else if decide (j = 7 ∨ j = 9) then 1%Qc
                 else if decide (j = 8) then Q2Qc 2
                 else 0%Qc)) <$> seq 0 n.

(** A stand-in for vnl with no zero divisor downstream: the SVD of a
    matrix with nine columns returns [paired_V], and the rows of the
    eigenvector matrix are the [ramp_row]s. *)
Definition paired_algo : VnlAlgo Qc := {|
  svd_V A tol := if decide (cols A = 9) then paired_V else identity (cols A);
  vnl_rank_row_reduce := rref;
  vnl_real_eigensystem M :=
    {| D := fmap of_real (diagonal M);
       V := ramp_row (rows M) <$> seq 0 (rows M) |}
|}.

(** Five correspondences (a, -1) <-> (1, b); the rows of their epipolar
    matrix are [a, -1, 1, a b, -b, b, a, -1, 1], which n0..n3 annihilate. *)
Definition right_five : list (@vgl_point_2d Qc) :=
  (λ a : Z, {| x := Q2Qc (inject_Z a); y := Q2Qc (-1) |}) <$> [1; 2; 3; 4; 5]%Z.
Definition left_five : list (@vgl_point_2d Qc) :=
  (λ b : Z, {| x := 1%Qc; y := Q2Qc (inject_Z b) |}) <$> [1; 2; 3; 4; 5]%Z.

(** The expected matrices of the run on these data: for i = 0..9,
    [i+1 1 1; 0 2 2; -(i+1) 1 1]. *)
Definition paired_matrices : list (list (list Q)) :=
  (λ i : Z, [[inject_Z (i + 1); 1; 1]; [0; 2; 2]; [inject_Z (- (i + 1)); 1; 1]]%Q)
    <$> [0; 1; 2; 3; 4; 5; 6; 7; 8; 9]%Z.

(** The point (0, 1). *)
Definition axis_point : @vgl_point_2d Qc := {| x := 0%Qc; y := 1%Qc |}.

(** A solver whose tolerance no eigenvalue can meet. *)
Definition strict_solver : @vpgl_em_compute_5_point Qc :=
  {| verbose := false; tolerance := Q2Qc (-1) |}.

(** 5 x + 7 x, stored as two terms. *)
Definition two_x_terms : vnl_real_npolynomial Qc :=
  set [Q2Qc 5; Q2Qc 7] [[1; 0; 0; 0]; [1; 0; 0; 0]]%Z.

End Geometry.

(** ** The scalars of the source: IEEE binary64 *)

Module Double.

(** The literals of the source, by repeated addition of 1.0 (exact up to
    2^53). *)
Definition of_Z (z : Z) : float :=
  match z with
  | Z0 => 0%float
  | Zpos p => Pos.iter (λ f, f + 1)%float 0%float p
  | Zneg p => (- Pos.iter (λ f, f + 1)%float 0%float p)%float
  end.

#[export] Instance double_scalar : Scalar float := {|
  s_of_Z := of_Z;
  s_add := PrimFloat.add;
  s_sub := PrimFloat.sub;
  s_mul := PrimFloat.mul;
  s_div := PrimFloat.div;
  s_abs := PrimFloat.abs;
  s_leb := PrimFloat.leb
|}.






End Double.


(** * Properties *)

(** ** Loops *)

Section Loops.
Context {S X : Type}.
Implicit Types (body : X → S → option S) (l : list X).

Lemma foldl_mbind_None body l :
  foldl (λ acc x, acc ≫= body x) None l = None.
Proof. induction l as [|a l IH]; simpl; auto. Qed.

Lemma foldM_cons body a l s :
  foldM body (a :: l) s = body a s ≫= foldM body l.
Proof.
  unfold foldM; simpl. destruct (body a s); simpl; auto using foldl_mbind_None.
Qed.

(** A loop whose body cannot fail is a pure fold. *)
Lemma foldM_pure body (g : S → X → S) l s :
  (∀ a t, a ∈ l → body a t = Some (g t a)) →
  foldM body l s = Some (foldl g s l).
Proof.
  revert s; induction l as [|a l IH]; intros s Hb; [done|].
  rewrite foldM_cons, Hb by left. simpl. apply IH.
  intros; apply Hb; by right.
Qed.

(** A loop that keeps an invariant ends, and ends inside it. *)
Lemma foldM_invariant (P : S → Prop) body l s :
  P s →
  (∀ a t, a ∈ l → P t → ∃ t', body a t = Some t' ∧ P t') →
  ∃ s', foldM body l s = Some s' ∧ P s'.
Proof.
  revert s; induction l as [|a l IH]; intros s Hs Hb; [by exists s|].
  destruct (Hb a s) as (t & Ht & HP); [left|done|].
  rewrite foldM_cons, Ht. simpl. apply IH; [done|].
  intros; apply Hb; [by right|done].
Qed.
End Loops.

Lemma foldM_seq_invariant {S : Type} (P : nat → S → Prop) n :
  ∀ lo (body : nat → S → option S) (s : S),
    P lo s →
    (∀ i t, lo ≤ i < lo + n → P i t →
            ∃ t', body i t = Some t' ∧ P (Datatypes.S i) t') →
    ∃ s', foldM body (seq lo n) s = Some s' ∧ P (lo + n) s'.
Proof.
  induction n as [|n IH]; intros lo body s Hs Hb.
  - exists s. by rewrite Nat.add_0_r.
  - simpl seq. rewrite foldM_cons.
    destruct (Hb lo s) as (t & Ht & HP); [lia|done|].
    rewrite Ht; simpl.
    replace (lo + Datatypes.S n) with (Datatypes.S lo + n) by lia.
    apply IH; [done|]. intros; apply Hb; [lia|done].
Qed.

(** The rule for [for (i = lo; i < hi; i++)]: an invariant indexed by the
    counter. *)
Lemma for_loop_invariant {S : Type} (P : nat → S → Prop) lo hi
    (body : nat → S → option S) (s : S) :
  lo ≤ hi →
  P lo s →
  (∀ i t, lo ≤ i < hi → P i t → ∃ t', body i t = Some t' ∧ P (Datatypes.S i) t') →
  ∃ s', for_loop lo hi body s = Some s' ∧ P hi s'.
Proof.
  intros Hle Hs Hb. unfold for_loop.
  destruct (foldM_seq_invariant P (hi - lo) lo body s) as (s' & Hrun & HP);
    [done| |].
  - intros; apply Hb; [lia|done].
  - exists s'. split; [done|]. by replace hi with (lo + (hi - lo)) by lia.
Qed.

Lemma for_loop_step {S : Type} lo hi (body : nat → S → option S) (s : S) :
  lo < hi → for_loop lo hi body s = body lo s ≫= for_loop (Datatypes.S lo) hi body.
Proof.
  intros Hlt. unfold for_loop.
  replace (hi - lo) with (Datatypes.S (hi - Datatypes.S lo)) by lia.
  simpl seq. apply foldM_cons.
Qed.

(** ** Matrices *)

Section MatrixFacts.
Context {A : Type}.
Implicit Types (m : list (list A)) (v : A).

Lemma has_dims_new r c v : has_dims r c (vnl_matrix_new r c v).
Proof.
  split; [apply length_replicate|].
  apply Forall_replicate, length_replicate.
Qed.

Lemma has_dims_lookup r c m i row :
  has_dims r c m → m !! i = Some row → length row = c.
Proof.
  intros [_ Hall] Hi. by eapply (proj1 (Forall_lookup _ _) Hall).
Qed.

Lemma has_dims_get r c m i j :
  has_dims r c m → i < r → j < c → is_Some (get m i j).
Proof.
  intros Hd Hi Hj. unfold get.
  destruct (lookup_lt_is_Some_2 m i) as [row Hrow]; [by rewrite (proj1 Hd)|].
  rewrite Hrow; simpl. apply lookup_lt_is_Some_2.
  by rewrite (has_dims_lookup _ _ _ _ _ Hd Hrow).
Qed.

Lemma has_dims_insert r c m i row :
  has_dims r c m → length row = c → has_dims r c (<[i := row]> m).
Proof.
  intros [Hr Hall] Hrow. split; [by rewrite length_insert|].
  by apply Forall_insert.
Qed.

Lemma put_lookup m i j v row :
  m !! i = Some row → put i j v m = <[i := <[j := v]> row]> m.
Proof.
  intros Hi. unfold put. apply list_eq; intros k.
  destruct (decide (k = i)) as [->|Hne].
  - rewrite list_lookup_alter_eq, Hi, list_lookup_insert_eq;
      [done|by eapply lookup_lt_Some].
  - by rewrite list_lookup_alter_ne, list_lookup_insert_ne.
Qed.

Lemma has_dims_put r c m i j v :
  has_dims r c m → has_dims r c (put i j v m).
Proof.
  intros [Hr Hall]. split; [unfold put; by rewrite length_alter|].
  apply Forall_alter; [done|]. intros row _ Hrow. by rewrite length_insert.
Qed.

Lemma has_dims_cols r c m : has_dims r c m → 0 < r → cols m = c.
Proof.
  intros [Hr Hall] Hpos. destruct m as [|row m]; simpl in *; [lia|].
  by inversion Hall.
Qed.

(** Writing the cells [k], [k+1], ... of row [i] one [put] at a time
    replaces that stretch of the row. *)
Lemma foldl_put_row {B : Type} (f : B → A) i (bs : list B) :
  ∀ k pre old m,
    m !! i = Some (pre ++ old) → length pre = k → length old = length bs →
    foldl (λ m' jb, put i jb.1 (f jb.2) m') m (imap (λ j b, (k + j, b)) bs)
    = <[i := pre ++ fmap f bs]> m.
Proof.
  induction bs as [|b bs IH]; intros k pre old m Hi Hk Hold.
  - destruct old; [|done]. simpl. by rewrite list_insert_id.
  - destruct old as [|o old]; [done|]. simpl.
    rewrite (put_lookup _ _ _ _ _ Hi), Nat.add_0_r.
    replace (<[k := f b]> (pre ++ o :: old)) with ((pre ++ [f b]) ++ old).
    2:{ rewrite <- Hk, insert_app_r_alt, Nat.sub_diag by lia.
        simpl. by rewrite <- app_assoc. }
    rewrite (imap_ext _ (λ j b', (Datatypes.S k + j, b'))).
    2:{ intros; simpl. f_equal. lia. }
    rewrite (IH (Datatypes.S k) (pre ++ [f b]) old).
    + rewrite list_insert_insert_eq. by rewrite <- app_assoc.
    + apply list_lookup_insert_eq. by eapply lookup_lt_Some.
    + rewrite length_app; simpl; lia.
    + simpl in Hold. lia.
Qed.
Lemma get_put_eq r c m i j v :
has_dims r c m → i < r → j < c → get (put i j v m) i j = Some v.
Proof.
intros Hd Hi Hj. unfold get, put. rewrite list_lookup_alter_eq.
destruct (lookup_lt_is_Some_2 m i) as [row Hrow]; [by rewrite (proj1 Hd)|].
rewrite Hrow. simpl. apply list_lookup_insert_eq.
by rewrite (has_dims_lookup _ _ _ _ _ Hd Hrow).
Qed.

Lemma get_put_ne m i j v i' j' :
i ≠ i' ∨ j ≠ j' → get (put i j v m) i' j' = get m i' j'.
Proof.
intros Hne. unfold get, put. destruct (decide (i = i')) as [<-|Hi].
- rewrite list_lookup_alter_eq. destruct (m !! i); simpl; [|done].
  apply list_lookup_insert_ne. by destruct Hne.
- by rewrite list_lookup_alter_ne.
Qed.
End MatrixFacts.

(** ** Coefficient lookup *)

Section CoefficientLookup.
Context {F : Type} `{Scalar F}.
Implicit Types (p : vnl_real_npolynomial F).

Lemma int_eq_unsigned_exponent a u :
  int_exponent a → int_eq_unsigned a u = true ↔ u = a.
Proof.
  intros [Hlo Hhi]. unfold int_eq_unsigned.
  rewrite Z.mod_small by lia. rewrite Z.eqb_eq. split; congruence.
Qed.

(** On a well-formed polynomial the lookup always yields a value. *)
Lemma get_coeff_from_is_Some p x_p y_p z_p rest :
  ∀ i, Forall (λ row, 3 ≤ length row) rest →
       i + length rest ≤ length (coefficients p) →
       is_Some (get_coeff_from p x_p y_p z_p i rest).
Proof.
  induction rest as [|row rest IH]; intros i Hrows Hlen; simpl; [by eexists|].
  inversion Hrows as [|? ? Hrow Hrest]; subst. simpl in Hlen.
  assert (Hnext : is_Some (get_coeff_from p x_p y_p z_p (S i) rest))
    by (apply IH; [done|lia]).
  destruct row as [|e0 [|e1 [|e2 row]]]; simpl in Hrow; try lia. simpl.
  repeat case_match; try done.
  apply lookup_lt_is_Some_2. lia.
Qed.

Lemma get_coeff_is_Some p x_p y_p z_p :
  poly_wf p → is_Some (get_coeff p x_p y_p z_p).
Proof.
  intros [Hlen Hrows]. apply get_coeff_from_is_Some; [done|]. simpl. lia.
Qed.

(** No matching row: the loop runs to its end and the fall-through value is
    returned. *)
Lemma get_coeff_from_absent p x_p y_p z_p rest :
  int_exponent x_p → int_exponent y_p → int_exponent z_p →
  Forall (λ row, 3 ≤ length row) rest →
  (∀ row, row ∈ rest →
     ¬ (row !! 0 = Some x_p ∧ row !! 1 = Some y_p ∧ row !! 2 = Some z_p)) →
  ∀ i, get_coeff_from p x_p y_p z_p i rest = Some (s_of_Z (-1)).
Proof.
  intros Hx Hy Hz. induction rest as [|row rest IH]; intros Hrows Habs i; [done|].
  inversion Hrows as [|? ? Hrow Hrest]; subst.
  assert (Hnext : ∀ j, get_coeff_from p x_p y_p z_p j rest = Some (s_of_Z (-1))).
  { apply IH; [done|]. intros r Hr. apply Habs. by right. }
  destruct row as [|e0 [|e1 [|e2 row]]]; simpl in Hrow; try lia. simpl.
  destruct (int_eq_unsigned x_p e0) eqn:E0; [|done].
  destruct (int_eq_unsigned y_p e1) eqn:E1; [|done].
  destruct (int_eq_unsigned z_p e2) eqn:E2; [|done].
  apply int_eq_unsigned_exponent in E0, E1, E2; [|done..]. subst.
  exfalso. apply (Habs (x_p :: y_p :: z_p :: row)); [left|done].
Qed.

Lemma get_coeff_absent p x_p y_p z_p :
  int_exponent x_p → int_exponent y_p → int_exponent z_p →
  poly_wf p → ¬ stores_term p x_p y_p z_p →
  get_coeff p x_p y_p z_p = Some (s_of_Z (-1)).
Proof.
  intros Hx Hy Hz [_ Hrows] Habs. apply get_coeff_from_absent; [done..|].
  intros row Hrow Hm. apply Habs. by exists row.
Qed.

Lemma get_coeff_found p x_p y_p z_p :
  poly_wf p → get_coeff p x_p y_p z_p = Some (found_coeff p (x_p, y_p, z_p)).
Proof.
  intros Hwf. unfold found_coeff; simpl.
  by destruct (get_coeff_is_Some p x_p y_p z_p Hwf) as [v ->].
Qed.

(** One pass of the outer loop writes row [i]. *)
Lemma coefficient_row_spec i (constraints : list (vnl_real_npolynomial F)) c A :
  constraints !! i = Some c → poly_wf c →
  has_dims 10 20 A → i < 10 →
  coefficient_row i constraints A
  = Some (<[i := fmap (found_coeff c) monomials]> A).
Proof.
  intros Hc Hwf Hd Hi. unfold coefficient_row. rewrite Hc; simpl.
  rewrite (foldM_pure _ (λ A' jm, put i jm.1 (found_coeff c jm.2) A')).
  2:{ intros [j [[x_p y_p] z_p]] A' _. by rewrite get_coeff_found. }
  f_equal.
  destruct (lookup_lt_is_Some_2 A i) as [row Hrow]; [rewrite (proj1 Hd); lia|].
  apply (foldl_put_row (found_coeff c) i monomials 0 [] row); [done..|].
  by rewrite (has_dims_lookup _ _ _ _ _ Hd Hrow).
Qed.

(** The matrix [A] of [compute_groebner_basis]: entry (i, j) is what
    [get_coeff] returns for constraint i and monomial j. *)
Lemma coefficient_matrix_spec (constraints : list (vnl_real_npolynomial F)) :
  10 ≤ length constraints → Forall poly_wf (take 10 constraints) →
  ∃ A, coefficient_matrix constraints = Some A ∧ has_dims 10 20 A ∧
       ∀ i j c x_p y_p z_p,
         i < 10 → constraints !! i = Some c →
         monomials !! j = Some (x_p, y_p, z_p) →
         get A i j = get_coeff c x_p y_p z_p.
Proof.
  intros Hlen Hwf. unfold coefficient_matrix.
  destruct (for_loop_invariant
    (λ k A, has_dims 10 20 A ∧
            ∀ i c, i < k → constraints !! i = Some c →
                   A !! i = Some (fmap (found_coeff c) monomials))
    0 10 (λ i A, coefficient_row i constraints A)
    (vnl_matrix_new 10 20 (s_of_Z 0))) as (A & HA & Hd & Hrows).
  - lia.
  - split; [apply has_dims_new|]. intros; lia.
  - intros k A' Hk [Hd IH].
    destruct (lookup_lt_is_Some_2 constraints k) as [c Hc]; [lia|].
    assert (Hcwf : poly_wf c).
    { eapply (proj1 (Forall_lookup _ _) Hwf k).
      rewrite lookup_take_lt by lia. done. }
    exists (<[k := fmap (found_coeff c) monomials]> A'). split.
    + apply coefficient_row_spec; [done..|lia].
    + split; [by apply has_dims_insert|].
      intros i c' Hi Hc'. destruct (decide (i = k)) as [->|Hne].
      * rewrite list_lookup_insert_eq by (rewrite (proj1 Hd); lia). congruence.
      * rewrite list_lookup_insert_ne by done. apply IH; [lia|done].
  - exists A. split; [done|]. split; [done|].
    intros i j c x_p y_p z_p Hi Hc Hm. unfold get.
    rewrite (Hrows i c Hi Hc). cbn -[monomials].
    rewrite list_lookup_fmap, Hm. cbn.
    rewrite get_coeff_found; [done|].
    eapply (proj1 (Forall_lookup _ _) Hwf i). by rewrite lookup_take_lt by lia.
Qed.

(** C9: when no stored term of [p] has the exponents (x_p, y_p, z_p) in its
    first three variables, [get_coeff] returns -1 (the fall-through
    [return -1], not 0); consequently the 10x20 matrix built by
    [compute_groebner_basis] holds -1 at row i, column j whenever monomial j
    is absent from the stored terms of constraint i. *)
Theorem get_coeff_absent_minus_one p x_p y_p z_p :
  int_exponent x_p → int_exponent y_p → int_exponent z_p →
  poly_wf p → ¬ stores_term p x_p y_p z_p →
  get_coeff p x_p y_p z_p = Some (s_of_Z (-1)) ∧
  ∀ (constraints : list (vnl_real_npolynomial F)) i j,
    10 ≤ length constraints → Forall poly_wf (take 10 constraints) →
    i < 10 → constraints !! i = Some p →
    monomials !! j = Some (x_p, y_p, z_p) →
    ∃ A, coefficient_matrix constraints = Some A ∧
         get A i j = Some (s_of_Z (-1)).
Proof.
  intros Hx Hy Hz Hwf Habs.
  assert (Hget := get_coeff_absent p x_p y_p z_p Hx Hy Hz Hwf Habs).
  split; [done|].
  intros constraints i j Hlen Hall Hi Hp Hm.
  destruct (coefficient_matrix_spec constraints Hlen Hall) as (A & HA & _ & Hent).
  exists A. split; [done|]. by rewrite (Hent i j p x_p y_p z_p Hi Hp Hm).
Qed.
End CoefficientLookup.

(** ** S1: the nullspace basis *)

Section Nullspace.
Context {F : Type} `{VnlPoly F} `{!VnlAlgo F}.
Variable this : @vpgl_em_compute_5_point F.

Lemma epipolar_matrix_spec (right_points left_points : list (@vgl_point_2d F)) :
  length right_points = 5 → length left_points = 5 →
  epipolar_matrix right_points left_points
  = Some (zip_with epipolar_row right_points left_points).
Proof.
  intros Hr Hl.
  destruct right_points as [|r0 [|r1 [|r2 [|r3 [|r4 [|]]]]]]; try done.
  destruct left_points as [|l0 [|l1 [|l2 [|l3 [|l4 [|]]]]]]; done.
Qed.

Lemma epipolar_matrix_dims (right_points left_points : list (@vgl_point_2d F)) :
  length right_points = 5 → length left_points = 5 →
  has_dims 5 9 (zip_with epipolar_row right_points left_points).
Proof.
  intros Hr Hl. split.
  - rewrite length_zip_with. lia.
  - apply Forall_forall. intros row Hrow.
    apply elem_of_zip_with in Hrow as (r & l & -> & _). done.
Qed.

(** Case analysis on the nine reads of column [k], top to bottom. *)
Local Ltac case_get V k j := destruct (get V j k) eqn:?; simpl; [|done].
Local Ltac case_column V k :=
  case_get V k 0; case_get V k 1; case_get V k 2; case_get V k 3;
  case_get V k 4; case_get V k 5; case_get V k 6; case_get V k 7;
  case_get V k 8.

(** The inner loop copies one column of [V]. *)
Lemma basis_vector_loop (V : vnl_matrix F) k col (z : F) :
  column9 V k = Some col →
  for_loop 0 9 (λ j basis_vector, v ← get V j k; Some (<[j := v]> basis_vector))
           (replicate 9 z) = Some col.
Proof.
  unfold column9, for_loop, foldM. simpl.
  case_column V k.
  by intros [= <-].
Qed.

Lemma column9_is_Some (V : vnl_matrix F) k :
  has_dims 9 9 V → k < 9 → is_Some (column9 V k).
Proof.
  intros Hd Hk. unfold column9. apply mapM_is_Some, Forall_forall.
  intros j Hj. apply elem_of_seq in Hj. simpl.
  apply (has_dims_get 9 9); [done|lia|done].
Qed.

Lemma column9_lookup (V : vnl_matrix F) k col :
  column9 V k = Some col →
  length col = 9 ∧ ∀ j, j < 9 → col !! j = get V j k.
Proof.
  unfold column9. simpl.
  case_column V k.
  intros [= <-]. split; [done|].
  intros j Hj. do 9 (destruct j as [|j]; [done|]). lia.
Qed.

Lemma compute_nullspace_basis_columns right_points left_points basis A c5 c6 c7 c8 :
  epipolar_matrix right_points left_points = Some A →
  column9 (svd_V A (tolerance this)) 5 = Some c5 →
  column9 (svd_V A (tolerance this)) 6 = Some c6 →
  column9 (svd_V A (tolerance this)) 7 = Some c7 →
  column9 (svd_V A (tolerance this)) 8 = Some c8 →
  compute_nullspace_basis this right_points left_points basis
  = Some (basis ++ [c5; c6; c7; c8]).
Proof.
  intros HA H5 H6 H7 H8. unfold compute_nullspace_basis. rewrite HA.
  cbn -[for_loop replicate].
  rewrite (for_loop_step 5), (basis_vector_loop _ _ _ _ H5) by lia.
  cbn -[for_loop replicate].
  rewrite (for_loop_step 6), (basis_vector_loop _ _ _ _ H6) by lia.
  cbn -[for_loop replicate].
  rewrite (for_loop_step 7), (basis_vector_loop _ _ _ _ H7) by lia.
  cbn -[for_loop replicate].
  rewrite (for_loop_step 8), (basis_vector_loop _ _ _ _ H8) by lia.
  cbn. by rewrite <- !app_assoc.
Qed.

(** The run of S1 on five point pairs. *)
Lemma compute_nullspace_basis_run `{!VnlAlgoDims F}
    (right_points left_points : list (@vgl_point_2d F)) :
  length right_points = 5 → length left_points = 5 →
  let A := zip_with epipolar_row right_points left_points in
  epipolar_matrix right_points left_points = Some A ∧
  has_dims 5 9 A ∧
  ∃ B0 B1 B2 B3,
    compute_nullspace_basis this right_points left_points [] = Some [B0; B1; B2; B3] ∧
    ∀ k B, [B0; B1; B2; B3] !! k = Some B →
           length B = 9 ∧
           ∀ j, j < 9 → B !! j = get (svd_V A (tolerance this)) j (5 + k).
Proof.
  intros Hr Hl A.
  assert (HA := epipolar_matrix_spec _ _ Hr Hl).
  assert (HdA := epipolar_matrix_dims _ _ Hr Hl). fold A in HA, HdA.
  assert (HdV : has_dims 9 9 (svd_V A (tolerance this))).
  { rewrite <- (has_dims_cols 5 9 A HdA) at 1 2 by lia. apply svd_V_dims. }
  destruct (column9_is_Some _ 5 HdV) as [c5 H5]; [lia|].
  destruct (column9_is_Some _ 6 HdV) as [c6 H6]; [lia|].
  destruct (column9_is_Some _ 7 HdV) as [c7 H7]; [lia|].
  destruct (column9_is_Some _ 8 HdV) as [c8 H8]; [lia|].
  split; [done|]. split; [done|].
  exists c5, c6, c7, c8. split.
  - by rewrite (compute_nullspace_basis_columns _ _ [] A c5 c6 c7 c8).
  - intros k B Hk.
    destruct k as [|[|[|[|k]]]]; simpl in Hk; try discriminate;
      injection Hk as <-; by apply column9_lookup.
Qed.

(** C5: for five point pairs, [compute_nullspace_basis] builds the 5x9
    matrix whose row i is [xr xl, yr xl, xl, xr yl, yr yl, yl, xr, yr, 1]
    and outputs exactly four 9-vectors B0..B3 with Bk[j] the entry (j, 5+k)
    of the matrix [V] of the SVD, whatever the singular values and the
    tolerance are. *)
Theorem compute_nullspace_basis_spec `{!VnlAlgoDims F}
    (right_points left_points : list (@vgl_point_2d F)) :
  length right_points = 5 → length left_points = 5 →
  let A := zip_with epipolar_row right_points left_points in
  epipolar_matrix right_points left_points = Some A ∧
  has_dims 5 9 A ∧
  ∃ B0 B1 B2 B3,
    compute_nullspace_basis this right_points left_points [] = Some [B0; B1; B2; B3] ∧
    ∀ k B, [B0; B1; B2; B3] !! k = Some B →
           length B = 9 ∧
           ∀ j, j < 9 → B !! j = get (svd_V A (tolerance this)) j (5 + k).
Proof. apply compute_nullspace_basis_run. Qed.
End Nullspace.

(** ** S2: the constraint polynomials *)

(** A list of known length, element by element. *)
Local Ltac nine l :=
  destruct l as [|? [|? [|? [|? [|? [|? [|? [|? [|? [|? ?]]]]]]]]]]; try done.
Local Ltac four_by_nine basis Hd :=
  let Hlen := fresh in let Hall := fresh in
  destruct Hd as [Hlen Hall];
  destruct basis as [|?b0 [|?b1 [|?b2 [|?b3 [|? ?]]]]]; try done;
  repeat match goal with
         | H : Forall _ (_ :: _) |- _ => inversion_clear H
         end;
  repeat match goal with
         | H : length ?b = 9 |- _ => nine b; clear H
         end.

Section ConstraintPolynomials.
Context {F : Type} `{VnlPolyWf F}.
Local Abbreviation poly := (vnl_real_npolynomial F).

Lemma set_exps_wf (c0 c1 c2 c3 : F) : poly_wf (set [c0; c1; c2; c3] exps).
Proof. split; [done|]. repeat constructor. Qed.

Lemma empty_poly_wf : poly_wf (inhabitant : poly).
Proof. split; [done|constructor]. Qed.

Lemma entry_polynomials_of_spec (basis : list (list F)) :
  has_dims 4 9 basis →
  ∃ entry_polynomials,
    entry_polynomials_of basis = Some entry_polynomials ∧
    ∀ k, poly_wf (entry_polynomials !!! k).
Proof.
  intros Hd. four_by_nine basis Hd.
  eexists. split; [reflexivity|].
  intros k. do 9 (destruct k as [|k]; [apply set_exps_wf|]). apply empty_poly_wf.
Qed.

Section FourLoops.
Variable E : nat → poly.
Hypothesis E_wf : ∀ k, poly_wf (E k).

(** What the four loops leave in [constraints] when it starts empty: the
    second and third loops add their terms at index i, one place before the
    polynomial the first loop pushed for i. *)
Lemma constraint_loops_nil :
  constraint_loops E [] =
    [ (det_term_1 E + det_term_2 E + det_term_3 E + next_term E 0 + last_term E 0)%P;
      (first_terms E 0 + next_term E 1 + last_term E 1)%P;
      (first_terms E 1 + next_term E 2 + last_term E 2)%P;
      (first_terms E 2 + next_term E 3 + last_term E 3)%P;
      (first_terms E 3 + next_term E 4 + last_term E 4)%P;
      (first_terms E 4 + next_term E 5 + last_term E 5)%P;
      (first_terms E 5 + next_term E 6 + last_term E 6)%P;
      (first_terms E 6 + next_term E 7 + last_term E 7)%P;
      (first_terms E 7 + next_term E 8 + last_term E 8)%P;
      first_terms E 8 ].
Proof. reflexivity. Qed.

Create HintDb poly_wf.
Local Hint Resolve padd_wf psub_wf pmul_wf pscale_wf : poly_wf.

Lemma bracket_wf r i : poly_wf (bracket E r i).
Proof. unfold bracket. auto 10 with poly_wf. Qed.

Lemma sum_of_squares_wf : poly_wf (sum_of_squares E).
Proof.
  unfold sum_of_squares. generalize (seq 1 8) as l.
  assert (Hacc : poly_wf (E 0 * E 0)%P) by auto with poly_wf.
  revert Hacc. generalize (E 0 * E 0)%P as acc.
  intros acc Hacc l; revert acc Hacc.
  induction l as [|k l IH]; intros acc Hacc; simpl; [done|].
  apply IH. auto with poly_wf.
Qed.

Local Hint Resolve bracket_wf sum_of_squares_wf : poly_wf.

Lemma constraint_loops_wf : Forall poly_wf (constraint_loops E []).
Proof.
  rewrite constraint_loops_nil.
  unfold det_term_1, det_term_2, det_term_3, first_terms, next_term, last_term.
  repeat (apply List.Forall_cons; [solve [auto 12 with poly_wf]|]).
  apply List.Forall_nil.
Qed.
End FourLoops.

Lemma compute_constraint_polynomials_spec (basis : list (list F)) :
  has_dims 4 9 basis →
  ∃ constraints,
    compute_constraint_polynomials basis [] = Some constraints ∧
    length constraints = 10 ∧ Forall poly_wf constraints.
Proof.
  intros Hd. destruct (entry_polynomials_of_spec basis Hd) as (eps & Heps & Hwf).
  unfold compute_constraint_polynomials. rewrite Heps. simpl.
  eexists. split; [reflexivity|]. split; [done|].
  by apply constraint_loops_wf.
Qed.
End ConstraintPolynomials.

(** ** S3: the Groebner matrix *)

Section Groebner.
Context {F : Type} `{VnlPoly F} `{!VnlAlgo F}.

(** The copy loop of [compute_groebner_basis] reads [A], the matrix built
    from the constraints, and writes its columns 10..19 into the output. *)
Lemma compute_groebner_basis_spec (constraints : list (vnl_real_npolynomial F))
    (G0 : vnl_matrix F) :
  10 ≤ length constraints → Forall poly_wf (take 10 constraints) →
  has_dims 10 10 G0 →
  ∃ A G, coefficient_matrix constraints = Some A ∧
         compute_groebner_basis constraints G0 = Some G ∧
         has_dims 10 10 G ∧
         ∀ i j, i < 10 → j < 10 → get G i j = get A i (j + 10).
Proof.
  intros Hlen Hwf HdG.
  destruct (coefficient_matrix_spec constraints Hlen Hwf) as (A & HA & HdA & _).
  exists A. unfold compute_groebner_basis.
  rewrite decide_True by (split; [apply HdG|apply (has_dims_cols 10 10); [done|lia]]).
  rewrite HA. cbn -[for_loop].
  destruct (for_loop_invariant
    (λ i G, has_dims 10 10 G ∧
            ∀ i' j, i' < i → j < 10 → get G i' j = get A i' (j + 10))
    0 10
    (λ i G, for_loop 0 10 (λ j G, v ← get A i (j + 10); Some (put i j v G)) G)
    G0) as (G & HG & Hd & Hent).
  - lia.
  - split; [done|]. intros; lia.
  - intros i G1 Hi [Hd1 Hdone].
    destruct (for_loop_invariant
      (λ j G, has_dims 10 10 G ∧
              (∀ i' j', i' < i → j' < 10 → get G i' j' = get A i' (j' + 10)) ∧
              (∀ j', j' < j → get G i j' = get A i (j' + 10)))
      0 10 (λ j G, v ← get A i (j + 10); Some (put i j v G)) G1)
      as (G2 & HG2 & Hd2 & Habove & Hrow).
    + lia.
    + split; [done|]. split; [done|]. intros; lia.
    + intros j G' Hj (Hd' & Habove & Hrow).
      destruct (has_dims_get 10 20 A i (j + 10) HdA) as [v Hv]; [lia..|].
      exists (put i j v G'). rewrite Hv. split; [done|].
      split; [by apply has_dims_put|]. split.
      * intros i' j' Hi' Hj'. rewrite get_put_ne by (left; lia). by apply Habove.
      * intros j' Hj'. destruct (decide (j' = j)) as [->|Hne].
        -- rewrite (get_put_eq 10 10) by (done || lia). done.
        -- rewrite get_put_ne by (right; lia). apply Hrow. lia.
    + exists G2. split; [done|]. split; [done|].
      intros i' j Hi' Hj. destruct (decide (i' = i)) as [->|Hne].
      * by apply Hrow.
      * apply Habove; [lia|done].
  - exists G. split; [done|]. split; [done|]. split; [done|].
    intros i j Hi Hj. by apply Hent.
Qed.

(** The output does not depend on the row reduction: [rrefed] is computed
    and never read. *)
Lemma compute_groebner_basis_ignores_row_reduce
    (reduce : vnl_matrix F → vnl_matrix F)
    (constraints : list (vnl_real_npolynomial F)) (G0 : vnl_matrix F) :
  let other := {| svd_V := svd_V; vnl_rank_row_reduce := reduce;
                  vnl_real_eigensystem := vnl_real_eigensystem |} in
  compute_groebner_basis (AF := other) constraints G0
  = compute_groebner_basis constraints G0.
Proof. reflexivity. Qed.
End Groebner.

(** ** S4: the action matrix *)

Section ActionMatrix.
Context {F : Type} `{VnlPoly F} `{!VnlAlgo F}.

Lemma compute_action_matrix_spec (G : vnl_matrix F) (z : F) :
  has_dims 10 10 G →
  ∃ M, compute_action_matrix G (vnl_matrix_new 10 10 z) = Some M ∧ rows M = 10.
Proof.
  intros [Hlen _].
  destruct G as [|g0 [|g1 [|g2 [|g3 [|g4 [|g5 [|g6 [|g7 [|g8 [|g9 [|]]]]]]]]]]];
    try done.
  eexists. split; reflexivity.
Qed.
End ActionMatrix.

(** ** S5: the essential matrices *)

Section EMatrices.
Context {F : Type} `{PF : VnlPoly F} {AF : VnlAlgo F}.
Variable this : @vpgl_em_compute_5_point F.

Lemma foldl_app_join {X Y : Type} (f : X → list Y) (l : list X) :
  ∀ acc, foldl (λ acc i, acc ++ f i) acc l = acc ++ mjoin (f <$> l).
Proof.
  induction l as [|a l IH]; intros acc; simpl; [by rewrite app_nil_r|].
  by rewrite IH, app_assoc.
Qed.

Lemma length_join_le {X Y : Type} (f : X → list Y) (l : list X) :
  (∀ i, length (f i) ≤ 1) → length (mjoin (f <$> l)) ≤ length l.
Proof.
  intros Hf. induction l as [|a l IH]; [done|].
  rewrite fmap_cons.
  change (mjoin (f a :: (f <$> l))) with (f a ++ mjoin (f <$> l)).
  rewrite length_app. specialize (Hf a). simpl length. lia.
Qed.

Lemma contribution_length tol basis (eigs : eigensystem F) i :
  length (contribution tol basis eigs i) ≤ 1.
Proof.
  unfold contribution. destruct (D eigs !! i) as [d|]; [|simpl; lia].
  destruct (s_abs (imag d) <=? tol)%S; simpl; lia.
Qed.

(** The body of the [if] computes the matrix of the specification. *)
Lemma e_matrix_spec (basis : list (list F)) (eigs : eigensystem F) i v :
  has_dims 4 9 basis → V eigs !! i = Some v → length v = 10 →
  e_matrix basis eigs i = Some (reconstructed_matrix basis v).
Proof.
  intros Hd Hv Hlen. four_by_nine basis Hd.
  destruct v as [|v0 [|v1 [|v2 [|v3 [|v4 [|v5 [|v6 [|v7 [|v8 [|v9 [|]]]]]]]]]]];
    try done.
  unfold e_matrix, get. rewrite Hv. reflexivity.
Qed.

Lemma compute_e_matrices_run `{!VnlAlgoDims F} (basis : list (list F))
    (M : vnl_matrix F) ems :
  has_dims 4 9 basis → rows M = 10 →
  let eigs := vnl_real_eigensystem M in
  compute_e_matrices this basis M ems
  = Some (ems ++ mjoin (contribution (tolerance this) basis eigs
                          <$> seq 0 (length (D eigs)))).
Proof.
  intros Hd HM eigs. unfold compute_e_matrices, for_loop. fold eigs.
  rewrite Nat.sub_0_r.
  rewrite (foldM_pure _ (λ ems i, ems ++ contribution (tolerance this) basis eigs i)).
  { by rewrite foldl_app_join. }
  intros i ems' Hi. apply elem_of_seq in Hi.
  assert (HD : length (D eigs) = 10) by (unfold eigs; by rewrite eig_D_size).
  assert (HV : has_dims 10 10 (V eigs)).
  { unfold eigs. rewrite <- HM. apply eig_V_dims. }
  destruct (lookup_lt_is_Some_2 (D eigs) i) as [d Hd']; [lia|].
  destruct (lookup_lt_is_Some_2 (V eigs) i) as [v Hv]; [rewrite (proj1 HV); lia|].
  unfold contribution. rewrite Hd', Hv. simpl.
  destruct (s_abs (imag d) <=? tolerance this)%S; [|by rewrite app_nil_r].
  rewrite (e_matrix_spec basis eigs i v); [done..|].
  by eapply has_dims_lookup.
Qed.

(** The vector operations of the code compute, entry by entry, the matrix
    of the specification. *)
Lemma reconstructed_matrix_specified (basis : list (list F))
    (v : list (complex F)) :
  has_dims 4 9 basis →
  reconstructed_matrix basis v = {| get_matrix := specified_matrix basis v |}.
Proof.
  intros [Hlen Hall].
  destruct basis as [|b0 [|b1 [|b2 [|b3 [|]]]]]; try discriminate Hlen.
  repeat match goal with
         | H : Forall _ (_ :: _) |- _ => inversion_clear H
         end.
  repeat match goal with
         | H : length ?b = 9 |- _ =>
             destruct b as [|? [|? [|? [|? [|? [|? [|? [|? [|? [|? ?]]]]]]]]]];
             try discriminate H; clear H
         end.
  reflexivity.
Qed.

Lemma contribution_specified tol (basis : list (list F))
    (eigs : eigensystem F) i :
  has_dims 4 9 basis → is_Some (V eigs !! i) →
  contribution tol basis eigs i = specified_contribution tol basis eigs i.
Proof.
  intros Hd [v Hv]. unfold contribution, specified_contribution.
  rewrite Hv. destruct (D eigs !! i) as [d|]; [|done]. simpl.
  by rewrite reconstructed_matrix_specified.
Qed.

Lemma contributions_specified `{!VnlAlgoDims F} tol
    (basis : list (list F)) (M : vnl_matrix F) :
  has_dims 4 9 basis → rows M = 10 →
  contribution tol basis (vnl_real_eigensystem M) <$> seq 0 10
  = specified_contribution tol basis (vnl_real_eigensystem M) <$> seq 0 10.
Proof.
  intros Hd HM. apply Forall_fmap_ext_1, Forall_forall. intros i Hi.
  apply elem_of_seq in Hi. apply contribution_specified; [done|].
  apply lookup_lt_is_Some_2.
  rewrite (proj1 (eig_V_dims M)). lia.
Qed.

Lemma compute_e_matrices_specified_run `{!VnlAlgoDims F}
    (basis : list (list F)) (M : vnl_matrix F) ems :
  has_dims 4 9 basis → rows M = 10 →
  let eigs := vnl_real_eigensystem M in
  compute_e_matrices this basis M ems
  = Some (ems ++ mjoin (specified_contribution (tolerance this) basis eigs
                          <$> seq 0 (length (D eigs)))).
Proof.
  intros Hd HM eigs. rewrite (compute_e_matrices_run basis M ems Hd HM).
  fold eigs. unfold eigs. rewrite eig_D_size, HM.
  by rewrite contributions_specified.
Qed.

End EMatrices.

(** ** The whole solver *)

Section Compute.
Context {F : Type} `{WF : VnlPolyWf F} {AF : VnlAlgo F} `{!VnlAlgoDims F}.
Variable this : @vpgl_em_compute_5_point F.
Implicit Types (right_points left_points : list (@vgl_point_2d F)).
Implicit Types (ems : list (@vpgl_essential_matrix F)).

(** The guard fails: nothing but the diagnostic happens. *)
Lemma compute_guard right_points left_points ems :
  length right_points ≠ 5 ∨ length left_points ≠ 5 →
  compute this right_points left_points ems
  = Some {| ret := Returned false;
            ems_after := ems;
            cerr := if verbose this
                    then wrong_number_message right_points left_points
                    else [] |}.
Proof. intros Hsz. unfold compute. by rewrite decide_True. Qed.

(** The guard passes: the five stages run, the matrices of the
    eigenvalues that pass the filter are appended, and control reaches the
    closing brace. *)
Lemma compute_valid_run right_points left_points ems :
  length right_points = 5 → length left_points = 5 →
  ∃ basis M,
    has_dims 4 9 basis ∧ rows M = 10 ∧
    compute this right_points left_points ems
    = Some {| ret := NoReturn;
              ems_after :=
                ems ++ mjoin (contribution (tolerance this) basis
                                (vnl_real_eigensystem M) <$> seq 0 10);
              cerr := [] |}.
Proof.
  intros Hr Hl. unfold compute. rewrite decide_False by lia.
  destruct (compute_nullspace_basis_run this right_points left_points Hr Hl)
    as (_ & _ & B0 & B1 & B2 & B3 & Hbasis & Hcols).
  assert (Hd : has_dims 4 9 [B0; B1; B2; B3]).
  { split; [done|]. apply Forall_lookup. intros k B Hk. by apply (Hcols k B). }
  destruct (compute_constraint_polynomials_spec _ Hd) as (cs & Hcs & Hlen & Hwf).
  destruct (compute_groebner_basis_spec cs (vnl_matrix_new 10 10 (s_of_Z 0)))
    as (A & G & _ & HG & HdG & _).
  { lia. }
  { by apply Forall_take. }
  { apply has_dims_new. }
  destruct (compute_action_matrix_spec G (s_of_Z 0) HdG) as (M & HM & Hrows).
  exists [B0; B1; B2; B3], M. split; [done|]. split; [done|].
  rewrite Hbasis. cbn -[compute_constraint_polynomials vnl_matrix_new].
  rewrite Hcs. cbn -[compute_groebner_basis vnl_matrix_new].
  rewrite HG. cbn -[compute_action_matrix vnl_matrix_new].
  rewrite HM. cbn -[compute_e_matrices].
  rewrite (compute_e_matrices_run this _ M ems Hd Hrows).
  cbn. by rewrite eig_D_size, Hrows.
Qed.

(** C3: when either list does not have exactly five points, [compute]
    returns false without touching the output list (empty when the caller
    passed it empty), runs into no undefined behaviour, and writes the
    diagnostic naming both sizes if and only if [verbose] is set. *)
Theorem compute_wrong_size right_points left_points ems :
  length right_points ≠ 5 ∨ length left_points ≠ 5 →
  ∃ o, compute this right_points left_points ems = Some o ∧
       ret o = Returned false ∧
       ems_after o = ems ∧ (ems = [] → ems_after o = []) ∧
       cerr o = (if verbose this
                 then [ put_string "Wrong number of input points!
";
                        put_string "right_points has ";
                        put_size (length right_points);
                        put_string " and left_points has ";
                        put_size (length left_points);
                        put_char "010"%char ]
                 else []) ∧
       (cerr o ≠ [] ↔ verbose this = true).
Proof.
  intros Hsz. eexists. split; [by apply compute_guard|]. simpl.
  repeat split; try done; destruct (verbose this); done.
Qed.

(** C4 (what the code does): on five points per side the pipeline runs to
    its end and then falls off the end of the function; no [return true] is
    executed. *)
Theorem compute_valid_no_return right_points left_points ems :
  length right_points = 5 → length left_points = 5 →
  ∃ o, compute this right_points left_points ems = Some o ∧
       ret o = NoReturn ∧ ret o ≠ Returned true.
Proof.
  intros Hr Hl.
  destruct (compute_valid_run right_points left_points ems Hr Hl)
    as (basis & M & _ & _ & Hrun).
  eexists. split; [exact Hrun|]. done.
Qed.

(** C7: on five points per side one call appends between 0 and 10
    essential matrices. *)
Theorem compute_at_most_ten right_points left_points ems :
  length right_points = 5 → length left_points = 5 →
  ∃ o produced, compute this right_points left_points ems = Some o ∧
                ems_after o = ems ++ produced ∧
                0 ≤ length produced ≤ 10.
Proof.
  intros Hr Hl.
  destruct (compute_valid_run right_points left_points ems Hr Hl)
    as (basis & M & _ & _ & Hrun).
  eexists _, _. split; [exact Hrun|]. split; [done|]. split; [lia|].
  etrans; [apply length_join_le, contribution_length|]. by rewrite length_seq.
Qed.

(** C8 (what the code does): the output list is a function of the inputs,
    but on five points per side the call executes no [return], so the value
    the caller reads is not determined: both [true] and [false] are
    possible. *)
Theorem compute_return_value_indeterminate right_points left_points ems :
  length right_points = 5 → length left_points = 5 →
  ∃ o, compute this right_points left_points ems = Some o ∧
       may_read (ret o) true ∧ may_read (ret o) false.
Proof.
  intros Hr Hl.
  destruct (compute_valid_run right_points left_points ems Hr Hl)
    as (basis & M & _ & _ & Hrun).
  eexists. split; [exact Hrun|]. done.
Qed.

(** C10: [compute] only appends to [ems]: whatever the inputs and the
    initial content, every element present before the call is still there,
    at its position, and the matrices produced come after them. *)
Theorem compute_appends_only right_points left_points ems :
  ∃ o produced, compute this right_points left_points ems = Some o ∧
                ems_after o = ems ++ produced ∧
                ∀ i em, ems !! i = Some em → ems_after o !! i = Some em.
Proof.
  assert (∃ o produced, compute this right_points left_points ems = Some o ∧
                        ems_after o = ems ++ produced) as (o & new & Hrun & Hout).
  { destruct (decide (length right_points ≠ 5 ∨ length left_points ≠ 5))
      as [Hsz|Hsz].
    - eexists _, []. split; [by apply compute_guard|]. simpl.
      by rewrite app_nil_r.
    - destruct (compute_valid_run right_points left_points ems)
        as (basis & M & _ & _ & Hrun); [lia..|].
      eexists _, _. split; [exact Hrun|]. done. }
  exists o, new. split; [done|]. split; [done|].
  intros i em Hi. rewrite Hout. by apply lookup_app_l_Some.
Qed.
End Compute.

(** ** The exact instance meets the contracts *)

Module ExactFacts.
Import Exact.

Section TermListFacts.
Context {F : Type} `{Scalar F}.
Implicit Types (p q : vnl_real_npolynomial F).

Lemma of_terms_wf (ts : list (F * list Z)) :
  Forall (λ t, 3 ≤ length t.2) ts → poly_wf (of_terms ts).
Proof.
  intros Hts. split; simpl; [by rewrite !length_fmap|]. by apply Forall_fmap.
Qed.

Lemma terms_wf p : poly_wf p → Forall (λ t, 3 ≤ length t.2) (terms p).
Proof.
  intros [_ Hrows]. apply Forall_forall. intros [c row] Hin.
  apply elem_of_zip_r in Hin. simpl.
  by apply (proj1 (Forall_forall _ _) Hrows).
Qed.

Lemma poly_add_wf p q : poly_wf p → poly_wf q → poly_wf (poly_add p q).
Proof. intros Hp Hq. apply of_terms_wf, Forall_app. auto using terms_wf. Qed.

Lemma poly_scale_wf p c : poly_wf p → poly_wf (poly_scale p c).
Proof.
  intros Hp. apply of_terms_wf, Forall_fmap.
  eapply Forall_impl; [by apply terms_wf|]. done.
Qed.

Lemma poly_mul_wf p q : poly_wf p → poly_wf q → poly_wf (poly_mul p q).
Proof.
  intros Hp Hq. apply of_terms_wf, Forall_bind.
  eapply Forall_impl; [by apply terms_wf|]. intros t Ht. simpl.
  apply Forall_bind. eapply Forall_impl; [by apply terms_wf|].
  intros u Hu. simpl. apply Forall_singleton. simpl.
  rewrite length_zip_with. simpl in Ht, Hu. lia.
Qed.

#[export] Instance term_list_poly_wf : VnlPolyWf F.
Proof.
  split; simpl.
  - apply poly_add_wf.
  - intros p q Hp Hq. by apply poly_add_wf, poly_scale_wf.
  - apply poly_mul_wf.
  - apply poly_scale_wf.
Qed.
End TermListFacts.

Lemma Qc_nonzero (a : Qc) : s_nonzero a → a ≠ 0%Qc.
Proof. intros Hne ->. discriminate Hne. Qed.

#[export] Instance Qc_scalar_div : ScalarDiv Qc.
Proof. intros a _ Ha. by apply Qcmult_inv_r, Qc_nonzero. Qed.

Lemma identity_dims n : has_dims n n (identity n).
Proof.
  split; [unfold identity; by rewrite length_fmap, length_seq|].
  apply Forall_fmap, Forall_forall. intros i _. simpl.
  by rewrite length_fmap, length_seq.
Qed.

#[export] Instance stand_in_dims : VnlAlgoDims Qc.
Proof.
  split; simpl.
  - intros A _. apply identity_dims.
  - intros M. unfold diagonal, rows. by rewrite length_fmap, length_imap.
  - intros M. destruct (identity_dims (rows M)) as [Hlen Hall]. split.
    + by rewrite length_fmap.
    + apply Forall_fmap. eapply Forall_impl; [exact Hall|].
      intros row Hrow. simpl. by rewrite length_fmap.
Qed.

Lemma paired_dims : @VnlAlgoDims Qc Geometry.paired_algo.
Proof.
  split; simpl.
  - intros A _. case_decide as HA; [|apply identity_dims].
    rewrite HA. split; [reflexivity|]. repeat constructor.
  - intros M. unfold diagonal, rows. by rewrite length_fmap, length_imap.
  - intros M. split; [by rewrite length_fmap, length_seq|].
    apply Forall_fmap, Forall_forall. intros i _. simpl.
    unfold Geometry.ramp_row. by rewrite length_fmap, length_seq.
Qed.

Lemma paired_basis_dims : has_dims 4 9 Geometry.paired_basis.
Proof. split; [done|]. repeat constructor. Qed.

(** *** The term-list arithmetic evaluates as polynomial arithmetic *)

Local Ltac qc_ring :=
  cbn [s_of_Z s_mul s_add s_sub Qc_scalar];
  change (Q2Qc (inject_Z 1)) with 1%Qc;
  change (Q2Qc (inject_Z 0)) with 0%Qc;
  ring.

Section Values.
Variable vars : list Qc.
Implicit Types (p q : vnl_real_npolynomial Qc) (ts us : list (Qc * list Z)).

Lemma peval_terms p : peval vars p = term_sum vars (terms p).
Proof.
  unfold peval, terms, term_sum. destruct p as [cs rows]. simpl.
  revert rows. induction cs as [|c cs IH]; intros [|row rows]; simpl; try done.
  by rewrite IH.
Qed.

Lemma terms_of_terms ts : terms (of_terms ts) = ts.
Proof. unfold terms, of_terms. simpl. apply zip_fst_snd. Qed.

Lemma peval_of_terms ts : peval vars (of_terms ts) = term_sum vars ts.
Proof. by rewrite peval_terms, terms_of_terms. Qed.

Lemma term_sum_app ts us :
  term_sum vars (ts ++ us) = (term_sum vars ts + term_sum vars us)%Qc.
Proof.
  unfold term_sum. rewrite fmap_app, foldr_app.
  induction ((λ t, t.1 * monomial_value vars t.2)%Qc <$> ts) as [|a l IH];
    simpl; [ring|].
  rewrite IH. ring.
Qed.

Lemma iter_mul_add (a : Qc) (n m : nat) :
  Nat.iter (n + m) (Qcmult a) 1%Qc
  = (Nat.iter n (Qcmult a) 1 * Nat.iter m (Qcmult a) 1)%Qc.
Proof. induction n as [|n IH]; simpl; [ring|]. rewrite IH. ring. Qed.

Lemma s_pow_add (a : Qc) (e f : Z) :
  (0 ≤ e)%Z → (0 ≤ f)%Z → s_pow a (e + f) = (s_pow a e * s_pow a f)%Qc.
Proof.
  intros He Hf. unfold s_pow. rewrite Z2Nat.inj_add by done.
  apply iter_mul_add.
Qed.

Lemma monomial_value_add (r s : list Z) :
  length r = length s →
  Forall (λ e, 0 ≤ e)%Z r → Forall (λ e, 0 ≤ e)%Z s →
  monomial_value vars (zip_with Z.add r s)
  = (monomial_value vars r * monomial_value vars s)%Qc.
Proof.
  unfold monomial_value. revert r s.
  induction vars as [|a vs IH]; intros r s Hlen Hr Hs.
  - cbn [zip_with foldr]. qc_ring.
  - destruct r as [|e r], s as [|f s]; try done; cbn [zip_with foldr].
    inversion_clear Hr. inversion_clear Hs. simpl in Hlen.
    rewrite IH, s_pow_add by (done || lia). qc_ring.
Qed.

Lemma term_sum_scale ts (c : Qc) :
  term_sum vars ((λ t, (t.1 * c, t.2)%S) <$> ts) = (term_sum vars ts * c)%Qc.
Proof.
  unfold term_sum. induction ts as [|t ts IH]; [simpl; ring|].
  rewrite !fmap_cons. cbn [foldr]. rewrite IH. simpl. ring.
Qed.

Lemma peval_add p q :
  peval vars (p + q)%P = (peval vars p + peval vars q)%Qc.
Proof.
  simpl. unfold poly_add. by rewrite peval_of_terms, term_sum_app, !peval_terms.
Qed.

Lemma peval_scale p (c : Qc) : peval vars (p *! c)%P = (peval vars p * c)%Qc.
Proof.
  simpl. unfold poly_scale. by rewrite peval_of_terms, term_sum_scale, peval_terms.
Qed.

Lemma peval_sub p q :
  peval vars (p - q)%P = (peval vars p - peval vars q)%Qc.
Proof.
  simpl. unfold poly_sub.
  change (poly_add p (poly_scale q (s_of_Z (-1))))
    with (p + q *! s_of_Z (-1))%P.
  rewrite peval_add, peval_scale.
  change (s_of_Z (-1) : Qc) with (- (1))%Qc. ring.
Qed.

Lemma term_sum_cons t ts :
  term_sum vars (t :: ts) = (t.1 * monomial_value vars t.2 + term_sum vars ts)%Qc.
Proof. reflexivity. Qed.

Lemma term_sum_products (c : Qc) (r : list Z) us :
  Forall (λ u, length r = length u.2 ∧ Forall (λ e, 0 ≤ e)%Z u.2) us →
  Forall (λ e, 0 ≤ e)%Z r →
  term_sum vars (u ← us; [((c * u.1)%S, zip_with Z.add r u.2)])
  = (c * monomial_value vars r * term_sum vars us)%Qc.
Proof.
  intros Hus Hr. induction Hus as [|u us [Hlen Hu] _ IH].
  - change (0 = c * monomial_value vars r * 0)%Qc. ring.
  - change (term_sum vars (((c * u.1)%S, zip_with Z.add r u.2)
                           :: (u ← us; [((c * u.1)%S, zip_with Z.add r u.2)]))
            = (c * monomial_value vars r * term_sum vars (u :: us))%Qc).
    rewrite !term_sum_cons, IH. cbn [fst snd].
    rewrite monomial_value_add by done. qc_ring.
Qed.

Lemma peval_mul n p q :
  uniform n p → uniform n q →
  peval vars (p * q)%P = (peval vars p * peval vars q)%Qc.
Proof.
  intros Hp Hq. cbn [pmul term_list_poly]. unfold poly_mul.
  rewrite peval_of_terms, !peval_terms.
  assert (Hts : Forall (λ t, length t.2 = n ∧ Forall (λ e, 0 ≤ e)%Z t.2) (terms p)).
  { apply Forall_forall. intros [c row] Hin. apply elem_of_zip_r in Hin.
    by apply (proj1 (Forall_forall _ _) Hp). }
  assert (Hus : Forall (λ t, length t.2 = n ∧ Forall (λ e, 0 ≤ e)%Z t.2) (terms q)).
  { apply Forall_forall. intros [c row] Hin. apply elem_of_zip_r in Hin.
    by apply (proj1 (Forall_forall _ _) Hq). }
  induction Hts as [|t ts [Hlen Ht] _ IH].
  - change (0 = 0 * term_sum vars (terms q))%Qc. ring.
  - change (term_sum vars
              ((u ← terms q; [((t.1 * u.1)%S, zip_with Z.add t.2 u.2)])
               ++ (t ← ts; u ← terms q;
                   [((t.1 * u.1)%S, zip_with Z.add t.2 u.2)]))
            = (term_sum vars (t :: ts) * term_sum vars (terms q))%Qc).
    rewrite term_sum_app, IH, term_sum_products, term_sum_cons; [ring| |done].
    eapply Forall_impl; [exact Hus|]. intros u [Hu1 Hu2]. split; [congruence|done].
Qed.
End Values.

Lemma unit_basis_dims : has_dims 4 9 unit_basis.
Proof. split; [done|]. repeat constructor. Qed.

(** C1 (what the code does): with the basis B0..B3 = e0..e3, that is
    E = [x y z; 1 0 0; 0 0 0], the ten emitted polynomials take at
    (x, y, z) = (1, 0, 0) the values 2 0 0 2 0 0 2 2 0 0, whereas
    [det, C0, ..., C8] take the values 0 2 0 0 2 0 0 4 0 0: the second and
    third terms of C_i are added at index i, which holds det (i = 0) or
    C_(i-1), and the last polynomial keeps only its first term and -E8 S. *)
Theorem compute_constraint_polynomials_misplaces_terms :
  values_at 1 0 0 <$> compute_constraint_polynomials unit_basis []
  = Some [2; 0; 0; 2; 0; 0; 2; 2; 0; 0]%Q ∧
  (λ eps, values_at 1 0 0 (spec_constraints (λ k, eps !!! k)))
    <$> entry_polynomials_of unit_basis
  = Some [0; 2; 0; 0; 2; 0; 0; 4; 0; 0]%Q.
Proof. split; vm_compute; reflexivity. Qed.

(** C2 (what the code does): on ten constraints whose 10x20 coefficient
    matrix is [I + J | I + J], the output is the block I + J of the
    unreduced matrix, whereas the row-reduced matrix is [I | I] and its
    columns 10..19 are the identity. *)
Theorem compute_groebner_basis_skips_reduction :
  to_Q <$> compute_groebner_basis dense_constraints (vnl_matrix_new 10 10 0%Qc)
  = Some (diagonal_matrix 2 1) ∧
  (λ A, to_Q (drop 10 <$> A)) <$> coefficient_matrix dense_constraints
  = Some (diagonal_matrix 2 1) ∧
  (λ A, to_Q (take 10 <$> vnl_rank_row_reduce A))
    <$> coefficient_matrix dense_constraints
  = Some (diagonal_matrix 1 0) ∧
  (λ A, to_Q (drop 10 <$> vnl_rank_row_reduce A))
    <$> coefficient_matrix dense_constraints
  = Some (diagonal_matrix 1 0).
Proof. repeat split; vm_compute; reflexivity. Qed.

(** *** The theorems at concrete inputs *)

Lemma get_coeff_absent_minus_one_witness :
  ¬ stores_term five_x 3 0 0 ∧
  get_coeff five_x 3 0 0 = Some (s_of_Z (-1)).
Proof.
  assert (Habs : ¬ stores_term five_x 3 0 0).
  { intros (row & Hrow & H0 & _). apply list_elem_of_singleton in Hrow.
    subst row. discriminate H0. }
  split; [exact Habs|].
  apply (get_coeff_absent_minus_one five_x 3 0 0); try exact Habs.
  - unfold int_exponent; lia.
  - unfold int_exponent; lia.
  - unfold int_exponent; lia.
  - split; [reflexivity|]. repeat constructor.
Defined.

Lemma compute_nullspace_basis_spec_witness :
  ∃ B0 B1 B2 B3,
    compute_nullspace_basis solver five_points five_points []
    = Some [B0; B1; B2; B3].
Proof.
  destruct (compute_nullspace_basis_spec solver five_points five_points
              eq_refl eq_refl) as (_ & _ & B0 & B1 & B2 & B3 & Hrun & _).
  exists B0, B1, B2, B3. exact Hrun.
Defined.


Lemma compute_wrong_size_witness :
  ∃ o, compute solver (take 4 five_points) five_points [] = Some o ∧
       ret o = Returned false ∧ ems_after o = [].
Proof.
  destruct (compute_wrong_size solver (take 4 five_points) five_points [])
    as (o & Hrun & Hret & Hems & _).
  - left. simpl. lia.
  - exists o. exact (conj Hrun (conj Hret Hems)).
Defined.

Lemma compute_valid_no_return_witness :
  ∃ o, compute solver five_points five_points [] = Some o ∧ ret o = NoReturn.
Proof.
  destruct (compute_valid_no_return solver five_points five_points []
              eq_refl eq_refl) as (o & Hrun & Hret & _).
  exists o. exact (conj Hrun Hret).
Defined.

Lemma compute_at_most_ten_witness :
  ∃ o, compute solver five_points five_points [] = Some o ∧
       length (ems_after o) ≤ 10.
Proof.
  destruct (compute_at_most_ten solver five_points five_points []
              eq_refl eq_refl) as (o & new & Hrun & Hems & Hlen).
  exists o. split; [exact Hrun|]. rewrite Hems. simpl. lia.
Defined.

Lemma compute_return_value_indeterminate_witness :
  ∃ o, compute solver five_points five_points [] = Some o ∧
       may_read (ret o) true ∧ may_read (ret o) false.
Proof.
  apply (compute_return_value_indeterminate solver five_points five_points []
           eq_refl eq_refl).
Defined.

Lemma compute_appends_only_witness :
  ∃ o produced,
    compute solver five_points five_points [earlier_matrix] = Some o ∧
    ems_after o = earlier_matrix :: produced.
Proof.
  destruct (compute_appends_only solver five_points five_points [earlier_matrix])
    as (o & new & Hrun & Hems & _).
  exists o, new. exact (conj Hrun Hems).
Defined.
End ExactFacts.

(** * Further properties of the five stages *)

(** ** Loops that run into undefined behaviour, loops that agree *)

Section MoreLoops.
Context {S X : Type}.
Implicit Types (body : X → S → option S) (l : list X).

(** A loop one of whose passes is undefined whatever the state is
    undefined. *)
Lemma foldM_undefined body l a :
  a ∈ l → (∀ s, body a s = None) → ∀ s, foldM body l s = None.
Proof.
  intros Hin Hbody. induction l as [|b l IH]; intros s.
  - by apply elem_of_nil in Hin.
  - rewrite foldM_cons. apply elem_of_cons in Hin as [<-|Hin].
    + by rewrite Hbody.
    + destruct (body b s); simpl; [by apply IH|done].
Qed.

(** Two bodies that agree on the values the loop visits run alike. *)
Lemma foldM_ext body body' l :
  (∀ a s, a ∈ l → body a s = body' a s) →
  ∀ s, foldM body l s = foldM body' l s.
Proof.
  induction l as [|a l IH]; intros Hb s; [done|].
  rewrite !foldM_cons, Hb by left.
  destruct (body' a s); simpl; [|done]. apply IH. intros; apply Hb. by right.
Qed.
End MoreLoops.

(** ** S4: the layout of the action matrix *)

Section ActionMatrixLayout.
Context {F : Type} `{Scalar F}.

Lemma fill_dims {A : Type} (r c : nat) (v : A) (m : vnl_matrix A) :
  has_dims r c m → fill v m = vnl_matrix_new r c v.
Proof.
  intros [Hr Hall]. unfold fill, vnl_matrix_new. subst r.
  induction Hall as [|row m Hrow _ IH]; [done|].
  rewrite fmap_cons. simpl. f_equal; [|exact IH].
  subst c. clear. induction row as [|a row IH]; [done|]. simpl. by f_equal.
Qed.

(** X1: for a 10x10 reduced basis G and a 10x10 output matrix,
    [compute_action_matrix] overwrites the whole output: rows 0..5 are rows
    0, 1, 2, 4, 5, 7 of G times -1, rows 6..9 hold 1.0 in columns 0, 1, 3, 6
    and 0.0 * -1 elsewhere; the previous content of the output and rows
    3, 6, 8, 9 of G have no influence. *)
Theorem compute_action_matrix_layout (G M0 : vnl_matrix F) :
  has_dims 10 10 G → has_dims 10 10 M0 →
  compute_action_matrix G M0
  = Some [ negated_row G 0; negated_row G 1; negated_row G 2;
           negated_row G 4; negated_row G 5; negated_row G 7;
           unit_row 0; unit_row 1; unit_row 3; unit_row 6 ].
Proof.
  intros [HG _] HM. unfold compute_action_matrix.
  rewrite (fill_dims 10 10 _ _ HM).
  destruct G as [|g0 [|g1 [|g2 [|g3 [|g4 [|g5 [|g6 [|g7 [|g8 [|g9 [|]]]]]]]]]]];
    try done.
Qed.

(** X2: [compute_action_matrix] reads row 7 of the reduced basis without a
    check: on a matrix with fewer than eight rows the run is undefined. *)
Theorem compute_action_matrix_short (G M0 : vnl_matrix F) :
  length G < 8 → compute_action_matrix G M0 = None.
Proof.
  intros HG. unfold compute_action_matrix.
  destruct G as [|g0 [|g1 [|g2 [|g3 [|g4 [|g5 [|g6 [|g7 G]]]]]]]];
    simpl in HG; try lia; reflexivity.
Qed.
End ActionMatrixLayout.

(** ** S3: what the output matrix holds *)

Section GroebnerOutput.
Context {F : Type} `{PF : VnlPoly F} {AF : VnlAlgo F}.
Implicit Types (constraints : list (vnl_real_npolynomial F)).

(** X3: on ten readable constraints and a 10x10 output matrix,
    [compute_groebner_basis] overwrites every cell: cell (i, j) is what
    [get_coeff] returns for constraint i and monomial 10 + j of the fixed
    ordering, whatever the output held before and whatever the row
    reduction returns. *)
Theorem compute_groebner_basis_output constraints (G0 : vnl_matrix F) :
  10 ≤ length constraints → Forall poly_wf (take 10 constraints) →
  has_dims 10 10 G0 →
  ∃ G, compute_groebner_basis constraints G0 = Some G ∧
       has_dims 10 10 G ∧
       ∀ i j c x_p y_p z_p,
         i < 10 → j < 10 → constraints !! i = Some c →
         monomials !! (j + 10) = Some (x_p, y_p, z_p) →
         get G i j = get_coeff c x_p y_p z_p.
Proof.
  intros Hlen Hwf HdG.
  destruct (compute_groebner_basis_spec constraints G0 Hlen Hwf HdG)
    as (A & G & HA & HG & Hd & Hcopy).
  destruct (coefficient_matrix_spec constraints Hlen Hwf) as (A' & HA' & _ & Hent).
  assert (A' = A) as -> by congruence.
  exists G. split; [done|]. split; [done|].
  intros i j c x_p y_p z_p Hi Hj Hc Hm.
  rewrite (Hcopy i j Hi Hj). by apply Hent.
Qed.

Lemma coefficient_matrix_few constraints :
  length constraints < 10 → coefficient_matrix constraints = None.
Proof.
  intros Hlen. unfold coefficient_matrix, for_loop.
  apply (foldM_undefined _ _ (length constraints)).
  - apply elem_of_seq. lia.
  - intros A. unfold coefficient_row.
    by rewrite (proj2 (lookup_ge_None constraints _)).
Qed.

(** X4: [compute_groebner_basis] indexes constraints 0..9 without a check:
    with fewer than ten constraints the run is undefined, whatever the
    output matrix is. *)
Theorem compute_groebner_basis_few_constraints constraints (G0 : vnl_matrix F) :
  length constraints < 10 → compute_groebner_basis constraints G0 = None.
Proof.
  intros Hlen. unfold compute_groebner_basis.
  rewrite (coefficient_matrix_few _ Hlen). by case_decide.
Qed.
End GroebnerOutput.

(** ** [get_coeff] on a stored term *)

Section CoefficientFound.
Context {F : Type} `{Scalar F}.
Implicit Types (p : vnl_real_npolynomial F).

Lemma row_matches_cons (row : list Z) x_p y_p z_p :
  row_matches row x_p y_p z_p →
  ∃ tl, row = x_p :: y_p :: z_p :: tl.
Proof.
  intros (H0 & H1 & H2).
  destruct row as [|e0 [|e1 [|e2 tl]]]; simpl in *; try done.
  exists tl. congruence.
Qed.

Lemma int_eq_unsigned_refl a : int_exponent a → int_eq_unsigned a a = true.
Proof. intros Ha. by apply int_eq_unsigned_exponent. Qed.

(** The loop passes over rows that do not match. *)
Lemma get_coeff_from_skip p x_p y_p z_p pre :
  int_exponent x_p → int_exponent y_p → int_exponent z_p →
  Forall (λ row, 3 ≤ length row) pre →
  (∀ row, row ∈ pre → ¬ row_matches row x_p y_p z_p) →
  ∀ rest k, get_coeff_from p x_p y_p z_p k (pre ++ rest)
            = get_coeff_from p x_p y_p z_p (k + length pre) rest.
Proof.
  intros Hx Hy Hz. induction pre as [|row pre IH]; intros Hwf Hno rest k.
  - simpl. by rewrite Nat.add_0_r.
  - inversion_clear Hwf as [|? ? Hrow Hpre].
    assert (Hnext : get_coeff_from p x_p y_p z_p (S k) (pre ++ rest)
                    = get_coeff_from p x_p y_p z_p (k + length (row :: pre)) rest).
    { rewrite IH; [|done|]. { simpl. f_equal. lia. }
      intros r Hr. apply Hno. by right. }
    destruct row as [|e0 [|e1 [|e2 tl]]]; simpl in Hrow; try lia.
    cbn [app get_coeff_from lookup list_lookup mbind option_bind].
    destruct (int_eq_unsigned x_p e0) eqn:E0; [|done].
    destruct (int_eq_unsigned y_p e1) eqn:E1; [|done].
    destruct (int_eq_unsigned z_p e2) eqn:E2; [|done].
    apply int_eq_unsigned_exponent in E0, E1, E2; [|done..]. subst.
    exfalso. apply (Hno (x_p :: y_p :: z_p :: tl)); [left|done].
Qed.

(** X5: [get_coeff] returns the coefficient of the first stored term whose
    first three exponents are (x_p, y_p, z_p): later terms with the same
    exponents and the exponents of further variables are never looked
    at. *)
Theorem get_coeff_first_match p x_p y_p z_p i row :
  int_exponent x_p → int_exponent y_p → int_exponent z_p →
  poly_wf p →
  polyn p !! i = Some row → row_matches row x_p y_p z_p →
  (∀ k r, k < i → polyn p !! k = Some r → ¬ row_matches r x_p y_p z_p) →
  get_coeff p x_p y_p z_p = coefficients p !! i ∧
  is_Some (coefficients p !! i).
Proof.
  intros Hx Hy Hz [Hlen Hwf] Hi Hrow Hfirst.
  assert (Hlt : i < length (polyn p)) by (by eapply lookup_lt_Some).
  split; [|apply lookup_lt_is_Some_2; lia].
  unfold get_coeff.
  rewrite <- (take_drop_middle (polyn p) i row Hi) at 1.
  rewrite get_coeff_from_skip; [|done..| |].
  - rewrite length_take_le by lia. simpl.
    destruct (row_matches_cons row x_p y_p z_p) as [tl ->]; [done|].
    cbn [get_coeff_from lookup list_lookup mbind option_bind].
    by rewrite !int_eq_unsigned_refl.
  - by apply Forall_take.
  - intros r Hr. apply list_elem_of_lookup in Hr as [k Hk].
    apply lookup_take_Some in Hk as [Hk Hki]. by apply (Hfirst k).
Qed.

Lemma exps_stores (x_p y_p z_p : Z) (c0 c1 c2 c3 : F) :
  stores_term (set [c0; c1; c2; c3] exps) x_p y_p z_p →
  (x_p + y_p + z_p ≤ 1)%Z.
Proof.
  intros (row & Hrow & H0 & H1 & H2). simpl in Hrow.
  repeat (apply elem_of_cons in Hrow as [->|Hrow]);
    [..|by apply elem_of_nil in Hrow];
    simpl in *; injection H0 as <-; injection H1 as <-; injection H2 as <-; lia.
Qed.

(** X6: entry polynomial i built by [compute_constraint_polynomials] has
    the coefficients basis[0][i], basis[1][i], basis[2][i], basis[3][i] on
    x, y, z and 1, and [get_coeff] answers -1 for every monomial of degree
    two or more. *)
Theorem entry_polynomial_coefficients (basis : list (list F)) eps i :
  has_dims 4 9 basis → entry_polynomials_of basis = Some eps → i < 9 →
  get_coeff (eps !!! i) 1 0 0 = basis !! 0 ≫= (.!! i) ∧
  get_coeff (eps !!! i) 0 1 0 = basis !! 1 ≫= (.!! i) ∧
  get_coeff (eps !!! i) 0 0 1 = basis !! 2 ≫= (.!! i) ∧
  get_coeff (eps !!! i) 0 0 0 = basis !! 3 ≫= (.!! i) ∧
  ∀ x_p y_p z_p,
    int_exponent x_p → int_exponent y_p → int_exponent z_p →
    (2 ≤ x_p + y_p + z_p)%Z →
    get_coeff (eps !!! i) x_p y_p z_p = Some (s_of_Z (-1)).
Proof.
  intros Hd Heps Hi. four_by_nine basis Hd.
  injection Heps as <-.
  do 9 (destruct i as [|i];
        [repeat split; try reflexivity;
         intros x_p y_p z_p Hx Hy Hz Hdeg;
         (apply get_coeff_absent; [done..|apply set_exps_wf|]);
         intros Hst; apply exps_stores in Hst; lia|]).
  lia.
Qed.
End CoefficientFound.

(** ** S1: which points are read, what is kept *)

Section NullspaceEdges.
Context {F : Type} `{PF : VnlPoly F} {AF : VnlAlgo F}.
Variable this : @vpgl_em_compute_5_point F.
Implicit Types (right_points left_points : list (@vgl_point_2d F)).

Lemma epipolar_matrix_first_five right_points left_points :
  epipolar_matrix right_points left_points
  = epipolar_matrix (take 5 right_points) (take 5 left_points).
Proof.
  unfold epipolar_matrix, for_loop. apply foldM_ext.
  intros i A Hi. apply elem_of_seq in Hi.
  by rewrite !lookup_take_lt by lia.
Qed.

Lemma compute_nullspace_basis_take right_points left_points basis :
  compute_nullspace_basis this right_points left_points basis
  = compute_nullspace_basis this (take 5 right_points) (take 5 left_points) basis.
Proof.
  unfold compute_nullspace_basis. by rewrite epipolar_matrix_first_five.
Qed.

(** X7: [compute_nullspace_basis] reads only the first five points of each
    list: points after the fifth never change its result. *)
Theorem compute_nullspace_basis_first_five right_points left_points basis :
  compute_nullspace_basis this right_points left_points basis
  = compute_nullspace_basis this (take 5 right_points) (take 5 left_points) basis.
Proof. apply compute_nullspace_basis_take. Qed.

(** X8: [compute_nullspace_basis] indexes points 0..4 of both lists without
    a check: with fewer than five points on either side the run is
    undefined. *)
Theorem compute_nullspace_basis_short right_points left_points basis :
  length right_points < 5 ∨ length left_points < 5 →
  compute_nullspace_basis this right_points left_points basis = None.
Proof.
  intros Hshort. unfold compute_nullspace_basis.
  assert (epipolar_matrix right_points left_points = None) as ->; [|done].
  unfold epipolar_matrix, for_loop.
  destruct Hshort as [Hr|Hl].
  - apply (foldM_undefined _ _ (length right_points)).
    + apply elem_of_seq. lia.
    + intros A. by rewrite (proj2 (lookup_ge_None right_points _)).
  - apply (foldM_undefined _ _ (length left_points)).
    + apply elem_of_seq. lia.
    + intros A. rewrite (proj2 (lookup_ge_None left_points _)) by done.
      by destruct (right_points !! _).
Qed.

(** X9: with at least five points on each side,
    [compute_nullspace_basis] keeps every vector already in [basis], in
    place, and appends exactly four 9-vectors after them. *)
Theorem compute_nullspace_basis_appends `{!VnlAlgoDims F}
    right_points left_points basis :
  5 ≤ length right_points → 5 ≤ length left_points →
  ∃ B0 B1 B2 B3,
    compute_nullspace_basis this right_points left_points basis
    = Some (basis ++ [B0; B1; B2; B3]) ∧
    Forall (λ B, length B = 9) [B0; B1; B2; B3].
Proof.
  intros Hr Hl. rewrite compute_nullspace_basis_take.
  assert (Hr5 : length (take 5 right_points) = 5) by (rewrite length_take; lia).
  assert (Hl5 : length (take 5 left_points) = 5) by (rewrite length_take; lia).
  set (A := zip_with epipolar_row (take 5 right_points) (take 5 left_points)).
  assert (HA := epipolar_matrix_spec _ _ Hr5 Hl5).
  assert (HdA := epipolar_matrix_dims _ _ Hr5 Hl5). fold A in HA, HdA.
  assert (HdV : has_dims 9 9 (svd_V A (tolerance this))).
  { rewrite <- (has_dims_cols 5 9 A HdA) at 1 2 by lia. apply svd_V_dims. }
  destruct (column9_is_Some _ 5 HdV) as [c5 H5]; [lia|].
  destruct (column9_is_Some _ 6 HdV) as [c6 H6]; [lia|].
  destruct (column9_is_Some _ 7 HdV) as [c7 H7]; [lia|].
  destruct (column9_is_Some _ 8 HdV) as [c8 H8]; [lia|].
  exists c5, c6, c7, c8. split.
  - by apply (compute_nullspace_basis_columns this _ _ basis A).
  - repeat constructor; by eapply column9_lookup.
Qed.
End NullspaceEdges.

(** ** S2: what a call does to the vector it is given *)

Section ConstraintFrame.
Context {F : Type} `{PF : VnlPoly F}.
Implicit Types (constraints : list (vnl_real_npolynomial F)).

Lemma foldl_push_frame {A : Type} (f : nat → A) (l : list nat) :
  ∀ cs : list A,
    length (foldl (λ cs i, cs ++ [f i]) cs l) = length cs + length l ∧
    ∀ k, k < length cs → foldl (λ cs i, cs ++ [f i]) cs l !! k = cs !! k.
Proof.
  induction l as [|i l IH]; intros cs; simpl; [split; [lia|done]|].
  destruct (IH (cs ++ [f i])) as [Hlen Hkeep]. split.
  - rewrite Hlen, length_app. simpl. lia.
  - intros k Hk. rewrite Hkeep by (rewrite length_app; lia).
    by apply lookup_app_l.
Qed.

Lemma foldl_assign_frame {A : Type} (g : list A → nat → A) (l : list nat) :
  ∀ cs : list A,
    length (foldl (λ cs i, <[i := g cs i]> cs) cs l) = length cs ∧
    ∀ k, k ∉ l → foldl (λ cs i, <[i := g cs i]> cs) cs l !! k = cs !! k.
Proof.
  induction l as [|i l IH]; intros cs; simpl; [done|].
  destruct (IH (<[i := g cs i]> cs)) as [Hlen Hkeep]. split.
  - by rewrite Hlen, length_insert.
  - intros k Hk. apply not_elem_of_cons in Hk as [Hki Hk].
    rewrite Hkeep by done. by apply list_lookup_insert_ne.
Qed.

Lemma constraint_loops_frame (E : nat → vnl_real_npolynomial F) constraints :
  length (constraint_loops E constraints) = length constraints + 10 ∧
  ∀ k, 9 ≤ k < length constraints →
       constraint_loops E constraints !! k = constraints !! k.
Proof.
  unfold constraint_loops.
  set (c1 := constraints ++ [_]).
  set (c2 := foldl (λ cs i, cs ++ [first_terms E i]) c1 (seq 0 9)).
  set (c3 := foldl _ c2 (seq 0 9)).
  destruct (foldl_push_frame (first_terms E) (seq 0 9) c1) as [L2 K2].
  destruct (foldl_assign_frame (λ cs i, cs !!! i + next_term E i)%P (seq 0 9) c2)
    as [L3 K3].
  destruct (foldl_assign_frame (λ cs i, cs !!! i + last_term E i)%P (seq 0 9) c3)
    as [L4 K4].
  fold c2 in L2, K2, L3, K3. fold c3 in L3, K3, L4, K4.
  assert (L1 : length c1 = length constraints + 1)
    by (unfold c1; rewrite length_app; simpl; lia).
  split.
  - rewrite L4, L3, L2, L1, length_seq. lia.
  - intros k Hk.
    assert (Hnot : k ∉ seq 0 9) by (rewrite elem_of_seq; lia).
    rewrite K4, K3, K2 by (done || lia).
    unfold c1. apply lookup_app_l. lia.
Qed.

(** X10: whatever [constraints] holds on entry,
    [compute_constraint_polynomials] makes it exactly ten polynomials
    longer and leaves every polynomial it held at an index of 9 or more
    unchanged and in place; only the first nine can be altered. *)
Theorem compute_constraint_polynomials_frame (basis : list (list F)) constraints :
  has_dims 4 9 basis →
  ∃ constraints',
    compute_constraint_polynomials basis constraints = Some constraints' ∧
    length constraints' = length constraints + 10 ∧
    ∀ k, 9 ≤ k < length constraints → constraints' !! k = constraints !! k.
Proof.
  intros Hd. destruct (entry_polynomials_of_spec basis Hd) as (eps & Heps & _).
  unfold compute_constraint_polynomials. rewrite Heps.
  eexists. split; [reflexivity|]. apply constraint_loops_frame.
Qed.

(** X11: [compute_constraint_polynomials] indexes basis vectors 0..3
    without a check: with fewer than four basis vectors the run is
    undefined. *)
Theorem compute_constraint_polynomials_short_basis (basis : list (list F))
    constraints :
  length basis < 4 → compute_constraint_polynomials basis constraints = None.
Proof.
  intros Hb. unfold compute_constraint_polynomials.
  assert (entry_polynomials_of basis = None) as ->; [|done].
  unfold entry_polynomials_of. rewrite for_loop_step by lia.
  destruct basis as [|b0 [|b1 [|b2 [|b3 basis]]]]; simpl in Hb; try lia;
    cbn [lookup list_lookup mbind option_bind];
    repeat (match goal with
            | |- context [?b !! 0] => destruct (b !! 0)
            end; cbn [mbind option_bind]); done.
Qed.
End ConstraintFrame.

(** ** S5: when the basis is read *)

Section EMatricesEdges.
Context {F : Type} `{PF : VnlPoly F} {AF : VnlAlgo F}.
Variable this : @vpgl_em_compute_5_point F.

(** X12: when no eigenvalue passes the filter |Im| <= tolerance,
    [compute_e_matrices] returns [ems] as it was and reads neither the
    basis nor the eigenvectors: this holds for every basis, even an empty
    one. *)
Theorem compute_e_matrices_none_pass (basis : list (list F))
    (M : vnl_matrix F) ems :
  Forall (λ d, (s_abs (imag d) <=? tolerance this)%S = false)
         (D (vnl_real_eigensystem M)) →
  compute_e_matrices this basis M ems = Some ems.
Proof.
  intros Hall. unfold compute_e_matrices, for_loop.
  rewrite (foldM_pure _ (λ ems _, ems)).
  - generalize (seq 0 (length (D (vnl_real_eigensystem M)) - 0)).
    intros l. by induction l.
  - intros i ems' Hi. apply elem_of_seq in Hi.
    destruct (lookup_lt_is_Some_2 (D (vnl_real_eigensystem M)) i) as [d Hd];
      [lia|].
    rewrite Hd. simpl.
    by rewrite (proj1 (Forall_lookup _ _) Hall i d Hd).
Qed.

(** X13: as soon as one eigenvalue passes the filter,
    [compute_e_matrices] indexes basis vectors 0..3 without a check: with
    fewer than four basis vectors the run is undefined. *)
Theorem compute_e_matrices_short_basis (basis : list (list F))
    (M : vnl_matrix F) ems i d :
  length basis < 4 →
  D (vnl_real_eigensystem M) !! i = Some d →
  (s_abs (imag d) <=? tolerance this)%S = true →
  compute_e_matrices this basis M ems = None.
Proof.
  intros Hb Hd Hpass. unfold compute_e_matrices, for_loop.
  apply (foldM_undefined _ _ i).
  - apply elem_of_seq. apply lookup_lt_Some in Hd. lia.
  - intros ems'. rewrite Hd. simpl. rewrite Hpass.
    assert (e_matrix basis (vnl_real_eigensystem M) i = None) as ->; [|done].
    unfold e_matrix.
    destruct (get _ i 9); simpl; [|done].
    destruct (get _ i 6); simpl; [|done].
    destruct (get _ i 7); simpl; [|done].
    destruct (get _ i 8); simpl; [|done].
    destruct basis as [|b0 [|b1 [|b2 [|b3 basis]]]]; simpl in Hb; try lia; done.
Qed.
End EMatricesEdges.

(** ** The valid run, with its basis named *)

Section ComputeColumns.
Context {F : Type} `{WF : VnlPolyWf F} {AF : VnlAlgo F} `{!VnlAlgoDims F}.
Variable this : @vpgl_em_compute_5_point F.

(** The basis of a valid run is columns 5..8 of the [V] of the SVD of the
    epipolar matrix. *)
Lemma compute_valid_run_columns
    (right_points left_points : list (@vgl_point_2d F)) ems :
  length right_points = 5 → length left_points = 5 →
  ∃ c5 c6 c7 c8 M,
    let V := svd_V (zip_with epipolar_row right_points left_points)
                   (tolerance this) in
    column9 V 5 = Some c5 ∧ column9 V 6 = Some c6 ∧
    column9 V 7 = Some c7 ∧ column9 V 8 = Some c8 ∧
    has_dims 4 9 [c5; c6; c7; c8] ∧ rows M = 10 ∧
    compute this right_points left_points ems
    = Some {| ret := NoReturn;
              ems_after :=
                ems ++ mjoin (contribution (tolerance this) [c5; c6; c7; c8]
                                (vnl_real_eigensystem M) <$> seq 0 10);
              cerr := [] |}.
Proof.
  intros Hr Hl.
  set (A := zip_with epipolar_row right_points left_points).
  assert (HA := epipolar_matrix_spec _ _ Hr Hl).
  assert (HdA := epipolar_matrix_dims _ _ Hr Hl). fold A in HA, HdA.
  assert (HdV : has_dims 9 9 (svd_V A (tolerance this))).
  { rewrite <- (has_dims_cols 5 9 A HdA) at 1 2 by lia. apply svd_V_dims. }
  destruct (column9_is_Some _ 5 HdV) as [c5 H5]; [lia|].
  destruct (column9_is_Some _ 6 HdV) as [c6 H6]; [lia|].
  destruct (column9_is_Some _ 7 HdV) as [c7 H7]; [lia|].
  destruct (column9_is_Some _ 8 HdV) as [c8 H8]; [lia|].
  assert (Hbasis := compute_nullspace_basis_columns this _ _ [] A c5 c6 c7 c8
                      HA H5 H6 H7 H8).
  assert (Hd : has_dims 4 9 [c5; c6; c7; c8]).
  { split; [done|]. repeat constructor; by eapply column9_lookup. }
  destruct (compute_constraint_polynomials_spec _ Hd) as (cs & Hcs & Hlen & Hwf).
  destruct (compute_groebner_basis_spec cs (vnl_matrix_new 10 10 (s_of_Z 0)))
    as (A' & G & _ & HG & HdG & _).
  { lia. }
  { by apply Forall_take. }
  { apply has_dims_new. }
  destruct (compute_action_matrix_spec G (s_of_Z 0) HdG) as (M & HM & Hrows).
  exists c5, c6, c7, c8, M. cbn zeta.
  do 4 (split; [done|]). split; [done|]. split; [done|].
  unfold compute. rewrite decide_False by lia.
  rewrite Hbasis. cbn -[compute_constraint_polynomials vnl_matrix_new].
  rewrite Hcs. cbn -[compute_groebner_basis vnl_matrix_new].
  rewrite HG. cbn -[compute_action_matrix vnl_matrix_new].
  rewrite HM. cbn -[compute_e_matrices].
  rewrite (compute_e_matrices_run this _ M ems Hd Hrows).
  cbn. by rewrite eig_D_size, Hrows.
Qed.
End ComputeColumns.

(** ** Over the exact scalars: the epipolar constraint and the values of
    the polynomials *)

Module GeometryFacts.
Import Exact ExactFacts Geometry.

Local Ltac qc_ring :=
  cbn [s_of_Z s_mul s_add s_sub s_div Qc_scalar];
  change (Q2Qc (inject_Z 1)) with 1%Qc;
  change (Q2Qc (inject_Z 0)) with 0%Qc;
  ring.

Lemma dot_vscale (w u : list Qc) (s : Qc) :
  dot w (vscale s u) = (s * dot w u)%Qc.
Proof.
  unfold dot, vscale. revert u.
  induction w as [|a w IH]; intros [|b u]; simpl; try ring.
  rewrite IH. ring.
Qed.

Lemma dot_vdiv (w u : list Qc) (s : Qc) :
  dot w (vdiv u s) = (dot w u / s)%Qc.
Proof.
  unfold dot, vdiv, Qcdiv. revert u.
  induction w as [|a w IH]; intros [|b u]; simpl; try ring.
  rewrite IH. unfold Qcdiv. ring.
Qed.

Lemma dot_vadd (w u v : list Qc) :
  length u = length v →
  dot w (vadd u v) = (dot w u + dot w v)%Qc.
Proof.
  unfold dot, vadd. revert u v.
  induction w as [|a w IH]; intros [|b u] [|c v] Hlen; simpl in *; try done;
    try ring.
  rewrite IH by lia. ring.
Qed.

Lemma dot_epipolar_row (r l : @vgl_point_2d Qc) (e : list Qc) :
  length e = 9 →
  dot (epipolar_row r l) e = epipolar_form l (vnl_matrix_fixed_3_3 e) r.
Proof.
  intros He.
  destruct e as [|e0 [|e1 [|e2 [|e3 [|e4 [|e5 [|e6 [|e7 [|e8 [|]]]]]]]]]];
    try done.
  unfold epipolar_form, dot, epipolar_row, homogeneous.
  cbn [vnl_matrix_fixed_3_3 take drop fmap list_fmap zip_with foldr].
  qc_ring.
Qed.

(** X14: the row that [compute_nullspace_basis] writes for a
    correspondence (r, l), dotted with a 9-vector e, is l' * E * r for the
    3x3 matrix E that [compute_e_matrices] makes of e (row-major): a vector
    of the nullspace of the 5x9 matrix is an E with l' * E * r = 0 for all
    five correspondences. *)
Theorem epipolar_row_dot (r l : @vgl_point_2d Qc) (e : list Qc) :
  length e = 9 →
  dot (epipolar_row r l) e = epipolar_form l (vnl_matrix_fixed_3_3 e) r.
Proof. apply dot_epipolar_row. Qed.

(** The reconstructed 9-vector is a combination of the basis, so it
    inherits every linear constraint the basis meets. *)
Lemma reconstructed_e_dot (basis : list (list Qc)) (v : list (complex Qc))
    (w : list Qc) :
  has_dims 4 9 basis →
  (∀ B, B ∈ basis → dot w B = 0%Qc) →
  length (reconstructed_e basis v) = 9 ∧ dot w (reconstructed_e basis v) = 0%Qc.
Proof.
  intros Hd Hw.
  destruct Hd as [Hlen Hall].
  destruct basis as [|B0 [|B1 [|B2 [|B3 [|]]]]]; try done.
  inversion_clear Hall as [|? ? H0 Ha].
  inversion_clear Ha as [|? ? H1 Hb].
  inversion_clear Hb as [|? ? H2 Hc].
  inversion_clear Hc as [|? ? H3 _].
  unfold reconstructed_e. cbn [lookup list_lookup default from_option id].
  split.
  - unfold vadd, vscale. rewrite !length_zip_with, !length_fmap. lia.
  - rewrite !dot_vadd, !dot_vscale.
    + rewrite (Hw B0), (Hw B1), (Hw B2), (Hw B3);
        [ring|by repeat first [left|right]..].
    + unfold vadd, vscale. rewrite !length_fmap. lia.
    + unfold vadd, vscale. rewrite !length_zip_with, !length_fmap. lia.
    + unfold vadd, vscale. rewrite !length_zip_with, !length_fmap. lia.
Qed.

Lemma reconstructed_matrix_epipolar (basis : list (list Qc))
    (v : list (complex Qc)) (r l : @vgl_point_2d Qc) :
  has_dims 4 9 basis →
  (∀ B, B ∈ basis → dot (epipolar_row r l) B = 0%Qc) →
  epipolar_form l (get_matrix (reconstructed_matrix basis v)) r = 0%Qc.
Proof.
  intros Hd Hw.
  destruct (reconstructed_e_dot basis v _ Hd Hw) as [Hlen Hdot].
  unfold reconstructed_matrix. cbn [get_matrix].
  rewrite <- dot_epipolar_row by (unfold vdiv; by rewrite length_fmap).
  rewrite dot_vdiv, Hdot. unfold Qcdiv. ring.
Qed.

Lemma specified_contribution_epipolar (tol : Qc) (basis : list (list Qc))
    (eigs : eigensystem Qc) i v em (r l : @vgl_point_2d Qc) :
  has_dims 4 9 basis →
  (∀ B, B ∈ basis → dot (epipolar_row r l) B = 0%Qc) →
  V eigs !! i = Some v →
  em ∈ specified_contribution tol basis eigs i →
  epipolar_form l (get_matrix em) r = 0%Qc.
Proof.
  intros Hd Hw Hv. unfold specified_contribution. rewrite Hv.
  destruct (D eigs !! i) as [d|]; [|by intros ?%elem_of_nil].
  destruct (s_abs (imag d) <=? tol)%S; [|by intros ?%elem_of_nil].
  intros ->%list_elem_of_singleton.
  rewrite <- (reconstructed_matrix_specified basis v Hd).
  by apply reconstructed_matrix_epipolar.
Qed.

Section Produced.
Context {AF : VnlAlgo Qc} `{!VnlAlgoDims Qc}.
Variable this : @vpgl_em_compute_5_point Qc.

(** X15: if the row of a correspondence (r, l) annihilates the four basis
    vectors, the matrix E that [compute_e_matrices] appends for an
    eigenvalue whose two divisors Re(v[9]) and e[8] are nonzero satisfies
    l' * E * r = 0.  Nothing is said of a matrix built with a zero
    divisor. *)
Theorem compute_e_matrices_epipolar (basis : list (list Qc))
    (M : vnl_matrix Qc) ems (r l : @vgl_point_2d Qc) :
  has_dims 4 9 basis → rows M = 10 →
  (∀ B, B ∈ basis → dot (epipolar_row r l) B = 0%Qc) →
  let eigs := vnl_real_eigensystem M in
  compute_e_matrices this basis M ems
  = Some (ems ++ mjoin (specified_contribution (tolerance this) basis eigs
                          <$> seq 0 10)) ∧
  ∀ i v v9 em,
    V eigs !! i = Some v → v !! 9 = Some v9 → real v9 ≠ 0%Qc →
    specified_entry basis v 8 ≠ 0%Qc →
    em ∈ specified_contribution (tolerance this) basis eigs i →
    epipolar_form l (get_matrix em) r = 0%Qc.
Proof.
  intros Hd HM Hw eigs. split.
  - rewrite (compute_e_matrices_specified_run this basis M ems Hd HM).
    fold eigs. unfold eigs. by rewrite eig_D_size, HM.
  - intros i v v9 em Hv _ _ _ Hem.
    by eapply specified_contribution_epipolar.
Qed.
End Produced.

Section EndToEnd.
Context {PF : VnlPoly Qc} {WF : VnlPolyWf Qc} {AF : VnlAlgo Qc}
        `{!VnlAlgoDims Qc}.
Variable this : @vpgl_em_compute_5_point Qc.

(** X16: on five correspondences, if columns 5..8 of the [V] of the SVD lie
    in the nullspace of the epipolar matrix, [compute] runs to its closing
    brace with these columns as basis, and the matrix E it appends for an
    eigenvalue whose two divisors Re(v[9]) and e[8] are nonzero satisfies
    l' * E * r = 0 for each of the five input correspondences (r, l). *)
Theorem compute_epipolar (right_points left_points : list (@vgl_point_2d Qc))
    ems :
  length right_points = 5 → length left_points = 5 →
  (∀ k B row,
     5 ≤ k < 9 →
     column9 (svd_V (zip_with epipolar_row right_points left_points)
                    (tolerance this)) k = Some B →
     row ∈ zip_with epipolar_row right_points left_points →
     dot row B = 0%Qc) →
  ∃ c5 c6 c7 c8 M,
    let V5 := svd_V (zip_with epipolar_row right_points left_points)
                    (tolerance this) in
    let basis := [c5; c6; c7; c8] in
    let eigs := vnl_real_eigensystem M in
    column9 V5 5 = Some c5 ∧ column9 V5 6 = Some c6 ∧
    column9 V5 7 = Some c7 ∧ column9 V5 8 = Some c8 ∧
    compute this right_points left_points ems
    = Some {| ret := NoReturn;
              ems_after :=
                ems ++ mjoin (specified_contribution (tolerance this) basis eigs
                                <$> seq 0 10);
              cerr := [] |} ∧
    ∀ i v v9 em j r l,
      V eigs !! i = Some v → v !! 9 = Some v9 → real v9 ≠ 0%Qc →
      specified_entry basis v 8 ≠ 0%Qc →
      em ∈ specified_contribution (tolerance this) basis eigs i →
      right_points !! j = Some r → left_points !! j = Some l →
      epipolar_form l (get_matrix em) r = 0%Qc.
Proof.
  intros Hr Hl Hnull.
  destruct (compute_valid_run_columns this right_points left_points ems Hr Hl)
    as (c5 & c6 & c7 & c8 & M & H5 & H6 & H7 & H8 & Hd & HM & Hrun).
  exists c5, c6, c7, c8, M. cbn zeta.
  do 4 (split; [done|]). split.
  { rewrite Hrun. by rewrite contributions_specified. }
  intros i v v9 em j r l Hv _ _ _ Hem Hrj Hlj.
  eapply specified_contribution_epipolar; [exact Hd| |exact Hv|exact Hem].
  assert (Hrow : epipolar_row r l
                 ∈ zip_with epipolar_row right_points left_points).
  { apply list_elem_of_lookup. exists j.
    by rewrite lookup_zip_with, Hrj, Hlj. }
  intros B HB.
  repeat (apply elem_of_cons in HB as [->|HB]);
    [apply (Hnull 5)|apply (Hnull 6)|apply (Hnull 7)|apply (Hnull 8)
    |by apply elem_of_nil in HB]; (lia || done).
Qed.
End EndToEnd.

(** *** What the polynomials of S2 evaluate to *)

Section Uniform.
Implicit Types (p q : vnl_real_npolynomial Qc).

Lemma uniform_of_terms n (ts : list (Qc * list Z)) :
  Forall (λ t, length t.2 = n ∧ Forall (λ e, 0 ≤ e)%Z t.2) ts →
  uniform n (of_terms ts).
Proof. intros Hts. unfold uniform. simpl. by apply Forall_fmap. Qed.

Lemma uniform_terms n p :
  uniform n p →
  Forall (λ t, length t.2 = n ∧ Forall (λ e, 0 ≤ e)%Z t.2) (terms p).
Proof.
  intros Hp. apply Forall_forall. intros [c row] Hin.
  apply elem_of_zip_r in Hin. by apply (proj1 (Forall_forall _ _) Hp).
Qed.

Lemma uniform_add n p q : uniform n p → uniform n q → uniform n (p + q)%P.
Proof.
  intros Hp Hq. apply uniform_of_terms, Forall_app. auto using uniform_terms.
Qed.

Lemma uniform_scale n p (c : Qc) : uniform n p → uniform n (p *! c)%P.
Proof.
  intros Hp. apply uniform_of_terms, Forall_fmap.
  eapply Forall_impl; [by apply uniform_terms|]. done.
Qed.

Lemma uniform_sub n p q : uniform n p → uniform n q → uniform n (p - q)%P.
Proof. intros Hp Hq. by apply uniform_add, uniform_scale. Qed.

Lemma uniform_mul n p q : uniform n p → uniform n q → uniform n (p * q)%P.
Proof.
  intros Hp Hq. apply uniform_of_terms, Forall_bind.
  eapply Forall_impl; [by apply uniform_terms|]. intros t [Ht1 Ht2]. simpl.
  apply Forall_bind. eapply Forall_impl; [by apply uniform_terms|].
  intros u [Hu1 Hu2]. simpl. apply Forall_singleton. simpl. split.
  - rewrite length_zip_with. lia.
  - clear Ht1 Hu1. revert Hu2. generalize u.2.
    induction Ht2 as [|a r Ha _ IH]; intros [|b s] Hs; simpl;
      [constructor..|].
    inversion_clear Hs. constructor; [lia|by apply IH].
Qed.

Lemma uniform_set_exps (c0 c1 c2 c3 : Qc) : uniform 4 (set [c0; c1; c2; c3] exps).
Proof.
  unfold uniform. simpl.
  repeat first [apply Forall_nil_2 | apply Forall_cons_2 | split];
    (done || lia).
Qed.
End Uniform.

Create HintDb uniform.
Local Hint Resolve uniform_add uniform_sub uniform_mul uniform_scale : uniform.

(** Push the evaluation through sums, differences and products of
    polynomials in four variables. *)
Local Ltac peval_push vars :=
  repeat first
    [ rewrite (peval_add vars)
    | rewrite (peval_sub vars)
    | rewrite (peval_scale vars)
    | rewrite (peval_mul vars 4) by auto 20 with uniform ].

Local Ltac four_by_nine_Qc basis Hd :=
  let Hlen := fresh in let Hall := fresh in
  destruct Hd as [Hlen Hall];
  destruct basis as [|?b0 [|?b1 [|?b2 [|?b3 [|? ?]]]]]; try done;
  repeat match goal with
         | H : Forall _ (_ :: _) |- _ => inversion_clear H
         end;
  repeat match goal with
         | H : length ?b = 9 |- _ =>
             destruct b as [|? [|? [|? [|? [|? [|? [|? [|? [|? [|? ?]]]]]]]]]];
             try done; clear H
         end.

Lemma exps_rows :
  exps = [[1; 0; 0; 0]; [0; 1; 0; 0]; [0; 0; 1; 0]; [0; 0; 0; 0]]%Z.
Proof. reflexivity. Qed.

Lemma entry_polynomials_uniform (basis : list (list Qc)) eps :
  has_dims 4 9 basis → entry_polynomials_of basis = Some eps →
  ∀ k, uniform 4 (eps !!! k).
Proof.
  intros Hd Heps. four_by_nine_Qc basis Hd.
  injection Heps as <-. intros k.
  do 9 (destruct k as [|k]; [apply uniform_set_exps|]). constructor.
Qed.

Lemma entry_polynomials_peval (basis : list (list Qc)) eps
    (x y z w : Qc) i :
  has_dims 4 9 basis → entry_polynomials_of basis = Some eps → i < 9 →
  peval [x; y; z; w] (eps !!! i) = entry_value basis x y z i.
Proof.
  intros Hd Heps Hi. four_by_nine_Qc basis Hd.
  injection Heps as <-.
  rewrite exps_rows.
  do 9 (destruct i as [|i];
        [unfold peval, entry_value, monomial_value, s_pow; cbn;
         change (Z.to_nat 1) with 1%nat; change (Z.to_nat 0) with 0%nat;
         cbn [Nat.iter nat_rect]; qc_ring|]).
  lia.
Qed.

(** X17: entry polynomial i built by [compute_constraint_polynomials]
    takes at every (x, y, z) the value x X_i + y Y_i + z Z_i + W_i, whatever
    is substituted for the fourth variable: the nine polynomials are the
    entries of E = x X + y Y + z Z + W. *)
Theorem entry_polynomials_value (basis : list (list Qc)) eps
    (x y z w : Qc) i :
  has_dims 4 9 basis → entry_polynomials_of basis = Some eps → i < 9 →
  peval [x; y; z; w] (eps !!! i) = entry_value basis x y z i.
Proof. apply entry_polynomials_peval. Qed.

Section PolynomialValues.
Variables (basis : list (list Qc)) (eps : list (vnl_real_npolynomial Qc)).
Variables (x y z : Qc).
Hypothesis basis_dims : has_dims 4 9 basis.
Hypothesis eps_basis : entry_polynomials_of basis = Some eps.

Let E (k : nat) : vnl_real_npolynomial Qc := eps !!! k.
Let vars : list Qc := [x; y; z; 1%Qc].

Local Lemma E_uniform k : uniform 4 (E k).
Proof. by apply (entry_polynomials_uniform basis). Qed.
Local Hint Resolve E_uniform : uniform.

Local Lemma E_value k : k < 9 → peval vars (E k) = entry_value basis x y z k.
Proof. intros Hk. by apply entry_polynomials_peval. Qed.

(** X18: the polynomial [det_term_1 + det_term_2 + det_term_3] that
    [compute_constraint_polynomials] pushes first takes at every (x, y, z)
    the value of the determinant of the 3x3 matrix E(x, y, z). *)
Theorem det_terms_value :
  peval vars (det_term_1 E + det_term_2 E + det_term_3 E)%P
  = det3 (entry_value basis x y z).
Proof.
  unfold det_term_1, det_term_2, det_term_3. peval_push vars.
  rewrite !E_value by lia. unfold det3. ring.
Qed.

(** X19: the polynomial [sum_of_squares] takes at every (x, y, z) the sum
    of the squares of the nine entries of E(x, y, z), that is
    trace(E E'). *)
Theorem sum_of_squares_value :
  peval vars (sum_of_squares E) = squares9 (entry_value basis x y z).
Proof.
  unfold sum_of_squares. cbn [foldl seq]. peval_push vars.
  rewrite !E_value by lia. unfold squares9. cbn [foldr fmap list_fmap seq]. ring.
Qed.
End PolynomialValues.

(** *** The theorems at concrete inputs *)

Lemma dense_constraints_wf : Forall poly_wf (take 10 dense_constraints).
Proof.
  apply Forall_take, Forall_fmap, Forall_forall. intros i _. split.
  - reflexivity.
  - unfold dense_constraint, polyn.
    apply Forall_fmap, Forall_forall. intros m _. simpl. lia.
Qed.

Lemma two_x_terms_wf : poly_wf two_x_terms.
Proof. split; [reflexivity|]. repeat constructor. Qed.

Lemma strict_solver_rejects :
  Forall (λ d, (s_abs (imag d) <=? tolerance strict_solver)%S = false)
         (D (vnl_real_eigensystem (identity 10))).
Proof. apply Forall_fmap, Forall_forall. intros a _. reflexivity. Qed.

Lemma paired_basis_rows B :
  B ∈ paired_basis →
  dot (epipolar_row {| x := Q2Qc 2; y := Q2Qc (-1) |}
                    {| x := 1%Qc; y := Q2Qc 3 |}) B = 0%Qc.
Proof.
  intros HB.
  repeat (apply elem_of_cons in HB as [->|HB]);
    [apply Qc_is_canon; reflexivity..|by apply elem_of_nil in HB].
Qed.

Lemma paired_nullspace k B row :
  5 ≤ k < 9 →
  column9 (@svd_V _ paired_algo (zip_with epipolar_row right_five left_five)
             (tolerance solver)) k = Some B →
  row ∈ zip_with epipolar_row right_five left_five →
  dot row B = 0%Qc.
Proof.
  intros Hk HB Hrow.
  assert (Hcase : k = 5 ∨ k = 6 ∨ k = 7 ∨ k = 8) by lia.
  unfold right_five, left_five in Hrow.
  cbn [fmap list_fmap zip_with] in Hrow.
  repeat (apply elem_of_cons in Hrow as [->|Hrow]);
    [..|by apply elem_of_nil in Hrow];
    destruct Hcase as [->|[->|[->| ->]]];
    injection HB as <-; apply Qc_is_canon; reflexivity.
Qed.

(** The run on these data: the basis is n0..n3, every eigenvalue passes the
    filter, no divisor is zero, and the ten matrices are
    [i+1 1 1; 0 2 2; -(i+1) 1 1]. *)
Lemma compute_paired_run :
  (λ o, to_Q ∘ get_matrix <$> ems_after o)
    <$> @compute _ _ _ paired_algo solver right_five left_five []
  = Some paired_matrices.
Proof. vm_compute. reflexivity. Qed.

Lemma compute_action_matrix_layout_witness :
  compute_action_matrix (identity 10) (vnl_matrix_new 10 10 (Q2Qc 7))
  = Some [ negated_row (identity 10) 0; negated_row (identity 10) 1;
           negated_row (identity 10) 2; negated_row (identity 10) 4;
           negated_row (identity 10) 5; negated_row (identity 10) 7;
           unit_row 0; unit_row 1; unit_row 3; unit_row 6 ].
Proof.
  exact (compute_action_matrix_layout (identity 10) _ (identity_dims 10)
           (has_dims_new 10 10 (Q2Qc 7))).
Defined.

Lemma compute_action_matrix_short_witness :
  compute_action_matrix (identity 7) (identity 10) = None.
Proof.
  exact (compute_action_matrix_short (identity 7) (identity 10)
           (Nat.lt_succ_diag_r 7)).
Defined.

Lemma compute_groebner_basis_output_witness :
  ∃ G, compute_groebner_basis dense_constraints (identity 10) = Some G ∧
       has_dims 10 10 G ∧
       ∀ i j c x_p y_p z_p,
         i < 10 → j < 10 → dense_constraints !! i = Some c →
         monomials !! (j + 10) = Some (x_p, y_p, z_p) →
         get G i j = get_coeff c x_p y_p z_p.
Proof.
  exact (compute_groebner_basis_output dense_constraints (identity 10)
           (le_n 10) dense_constraints_wf (identity_dims 10)).
Defined.

Lemma compute_groebner_basis_few_constraints_witness :
  compute_groebner_basis (take 9 dense_constraints) (identity 10) = None.
Proof.
  exact (compute_groebner_basis_few_constraints (take 9 dense_constraints)
           (identity 10) (le_n 10)).
Defined.

Lemma get_coeff_first_match_witness :
  get_coeff two_x_terms 1 0 0 = coefficients two_x_terms !! 0 ∧
  is_Some (coefficients two_x_terms !! 0).
Proof.
  apply (get_coeff_first_match two_x_terms 1 0 0 0 [1; 0; 0; 0]%Z).
  - unfold int_exponent; lia.
  - unfold int_exponent; lia.
  - unfold int_exponent; lia.
  - exact two_x_terms_wf.
  - reflexivity.
  - repeat split.
  - intros k r Hk. lia.
Defined.

Lemma entry_polynomial_coefficients_witness :
  ∃ eps, entry_polynomials_of unit_basis = Some eps ∧
    get_coeff (eps !!! 1) 1 0 0 = unit_basis !! 0 ≫= (.!! 1) ∧
    get_coeff (eps !!! 1) 0 1 0 = unit_basis !! 1 ≫= (.!! 1) ∧
    get_coeff (eps !!! 1) 0 0 1 = unit_basis !! 2 ≫= (.!! 1) ∧
    get_coeff (eps !!! 1) 0 0 0 = unit_basis !! 3 ≫= (.!! 1) ∧
    ∀ x_p y_p z_p,
      int_exponent x_p → int_exponent y_p → int_exponent z_p →
      (2 ≤ x_p + y_p + z_p)%Z →
      get_coeff (eps !!! 1) x_p y_p z_p = Some (s_of_Z (-1)).
Proof.
  eexists. split; [reflexivity|].
  apply (entry_polynomial_coefficients unit_basis _ 1 unit_basis_dims eq_refl).
  lia.
Defined.

Lemma compute_nullspace_basis_short_witness :
  compute_nullspace_basis solver (take 4 five_points) five_points [] = None.
Proof.
  apply (compute_nullspace_basis_short solver (take 4 five_points) five_points []).
  left. exact (le_n 5).
Defined.

Lemma compute_nullspace_basis_appends_witness :
  ∃ B0 B1 B2 B3,
    compute_nullspace_basis solver (five_points ++ five_points) five_points
                            [unit9 0]
    = Some ([unit9 0] ++ [B0; B1; B2; B3]) ∧
    Forall (λ B, length B = 9) [B0; B1; B2; B3].
Proof.
  apply (compute_nullspace_basis_appends solver (five_points ++ five_points)
           five_points [unit9 0]).
  - simpl. lia.
  - simpl. lia.
Defined.

Lemma compute_constraint_polynomials_frame_witness :
  ∃ constraints',
    compute_constraint_polynomials unit_basis dense_constraints
    = Some constraints' ∧
    length constraints' = length dense_constraints + 10 ∧
    ∀ k, 9 ≤ k < length dense_constraints →
         constraints' !! k = dense_constraints !! k.
Proof.
  exact (compute_constraint_polynomials_frame unit_basis dense_constraints
           unit_basis_dims).
Defined.

Lemma compute_constraint_polynomials_short_basis_witness :
  compute_constraint_polynomials (take 3 unit_basis) [five_x] = None.
Proof.
  exact (compute_constraint_polynomials_short_basis (take 3 unit_basis)
           [five_x] (le_n 4)).
Defined.

Lemma compute_e_matrices_none_pass_witness :
  compute_e_matrices strict_solver unit_basis (identity 10) [earlier_matrix]
  = Some [earlier_matrix].
Proof.
  exact (compute_e_matrices_none_pass strict_solver unit_basis (identity 10)
           [earlier_matrix] strict_solver_rejects).
Defined.

Lemma compute_e_matrices_short_basis_witness :
  compute_e_matrices solver (take 3 unit_basis) (identity 10) [] = None.
Proof.
  exact (compute_e_matrices_short_basis solver (take 3 unit_basis)
           (identity 10) [] 0 (of_real 1) (le_n 4) eq_refl eq_refl).
Defined.

Lemma epipolar_row_dot_witness :
  dot (epipolar_row axis_point axis_point) (unit9 4)
  = epipolar_form axis_point (vnl_matrix_fixed_3_3 (unit9 4)) axis_point.
Proof.
  exact (epipolar_row_dot axis_point axis_point (unit9 4) eq_refl).
Defined.

Lemma compute_e_matrices_epipolar_witness :
  let r := {| x := Q2Qc 2; y := Q2Qc (-1) |} in
  let l := {| x := 1%Qc; y := Q2Qc 3 |} in
  let eigs := @vnl_real_eigensystem _ paired_algo (identity 10) in
  @compute_e_matrices _ _ paired_algo solver paired_basis (identity 10) []
  = Some ([] ++ mjoin (specified_contribution (tolerance solver) paired_basis
                         eigs <$> seq 0 10)) ∧
  ∀ i v v9 em,
    V eigs !! i = Some v → v !! 9 = Some v9 → real v9 ≠ 0%Qc →
    specified_entry paired_basis v 8 ≠ 0%Qc →
    em ∈ specified_contribution (tolerance solver) paired_basis eigs i →
    epipolar_form l (get_matrix em) r = 0%Qc.
Proof.
  exact (@compute_e_matrices_epipolar paired_algo paired_dims solver
           paired_basis (identity 10) [] _ _ paired_basis_dims eq_refl
           paired_basis_rows).
Defined.

Lemma compute_epipolar_witness :
  ∃ c5 c6 c7 c8 M,
    let V5 := @svd_V _ paired_algo (zip_with epipolar_row right_five left_five)
                (tolerance solver) in
    let basis := [c5; c6; c7; c8] in
    let eigs := @vnl_real_eigensystem _ paired_algo M in
    column9 V5 5 = Some c5 ∧ column9 V5 6 = Some c6 ∧
    column9 V5 7 = Some c7 ∧ column9 V5 8 = Some c8 ∧
    @compute _ _ _ paired_algo solver right_five left_five []
    = Some {| ret := NoReturn;
              ems_after :=
                [] ++ mjoin (specified_contribution (tolerance solver) basis eigs
                               <$> seq 0 10);
              cerr := [] |} ∧
    ∀ i v v9 em j r l,
      V eigs !! i = Some v → v !! 9 = Some v9 → real v9 ≠ 0%Qc →
      specified_entry basis v 8 ≠ 0%Qc →
      em ∈ specified_contribution (tolerance solver) basis eigs i →
      right_five !! j = Some r → left_five !! j = Some l →
      epipolar_form l (get_matrix em) r = 0%Qc.
Proof.
  exact (@compute_epipolar _ _ paired_algo paired_dims solver right_five
           left_five [] eq_refl eq_refl paired_nullspace).
Defined.

Lemma entry_polynomials_value_witness :
  ∃ eps, entry_polynomials_of unit_basis = Some eps ∧
    peval [Q2Qc 2; Q2Qc 3; Q2Qc 5; Q2Qc 7] (eps !!! 1)
    = entry_value unit_basis (Q2Qc 2) (Q2Qc 3) (Q2Qc 5) 1.
Proof.
  eexists. split; [reflexivity|].
  apply (entry_polynomials_value unit_basis _ _ _ _ _ 1 unit_basis_dims eq_refl).
  lia.
Defined.

Lemma det_terms_value_witness :
  ∃ eps, entry_polynomials_of unit_basis = Some eps ∧
    peval [Q2Qc 2; Q2Qc 3; Q2Qc 5; 1%Qc]
      (det_term_1 (λ k, eps !!! k) + det_term_2 (λ k, eps !!! k)
       + det_term_3 (λ k, eps !!! k))%P
    = det3 (entry_value unit_basis (Q2Qc 2) (Q2Qc 3) (Q2Qc 5)).
Proof.
  eexists. split; [reflexivity|].
  exact (det_terms_value unit_basis _ (Q2Qc 2) (Q2Qc 3) (Q2Qc 5)
           unit_basis_dims eq_refl).
Defined.

Lemma sum_of_squares_value_witness :
  ∃ eps, entry_polynomials_of unit_basis = Some eps ∧
    peval [Q2Qc 2; Q2Qc 3; Q2Qc 5; 1%Qc] (sum_of_squares (λ k, eps !!! k))
    = squares9 (entry_value unit_basis (Q2Qc 2) (Q2Qc 3) (Q2Qc 5)).
Proof.
  eexists. split; [reflexivity|].
  exact (sum_of_squares_value unit_basis _ (Q2Qc 2) (Q2Qc 3) (Q2Qc 5)
           unit_basis_dims eq_refl).
Defined.

End GeometryFacts.

(** ** Over IEEE doubles: a nonzero divisor is not enough *)

Module DoubleFacts.
Import Double.

End DoubleFacts.
